(** * mkv-5.1to2.1: a verified model of the audio enhancement pipeline

    The program (main.go) lists the audio tracks of a Matroska file with
    ffprobe, transcodes every track to a louder stereo side-car file with
    ffmpeg (one goroutine per track, joined by a WaitGroup), remuxes the
    originals and the side-cars into a new container and finally deletes
    the side-cars.

    Go strings are byte sequences: they are modelled by [string] (a list
    of 8-bit [ascii]).  A Go [error] is only ever printed or returned here,
    so it is modelled by its message. *)

From Stdlib Require Import String Ascii List Bool Arith NArith ZArith Lia.
From Stdlib Require Import DecimalString Permutation.
Import ListNotations.
Open Scope string_scope.

(** ** The pieces of the Go library the program calls *)

(** [++] joins strings below; [+++] joins lists. *)
Infix "+++" := (@List.app _) (at level 60, right associativity).

(** The builtin [append(s, elems...)] on slices. *)
Definition append {A : Type} (s elems : list A) : list A := s +++ elems.

Module GoStrings.

Definition len (s : string) : nat := String.length s.

(** [strings.HasPrefix(s, prefix)]. *)
Definition HasPrefix (s prefix : string) : bool := String.prefix prefix s.

(** [strings.HasSuffix(s, suffix)]:
    [len(s) >= len(suffix) && s[len(s)-len(suffix):] == suffix]. *)
Definition HasSuffix (s suffix : string) : bool :=
  (len suffix <=? len s)%nat &&
  (substring (len s - len suffix) (len suffix) s =? suffix).

(** [strings.TrimSuffix(s, suffix)]: [s[:len(s)-len(suffix)]] when [s] ends in
    [suffix], and [s] itself otherwise. *)
Definition TrimSuffix (s suffix : string) : string :=
  if HasSuffix s suffix then substring 0 (len s - len suffix) s else s.

(** [strings.Split(s, sep)] for a separator of one byte (the program only
    splits on "|"): the fields between the separators, in order; a string
    without separator is its own single field, so the result is never
    empty. *)
Fixpoint Split (s : string) (sep : ascii) : list string :=
  match s with
  | EmptyString => [EmptyString]
  | String c rest =>
      if Ascii.eqb c sep then EmptyString :: Split rest sep
      else match Split rest sep with
           | field :: fields => String c field :: fields
           | [] => [String c EmptyString]
           end
  end.

(** [strings.Join(elems, sep)]. *)
Definition Join (elems : list string) (sep : string) : string :=
  String.concat sep elems.

(** [fmt.Sprintf("%d", i)] for a loop index. *)
Definition itoa (i : nat) : string := NilZero.string_of_uint (Nat.to_uint i).

End GoStrings.

Module GoBufio.

Definition newline : ascii := "010"%char.
Definition carriage_return : ascii := "013"%char.

(** [bufio.MaxScanTokenSize]: the size a [Scanner]'s buffer may grow to. *)
Definition MaxScanTokenSize : N := 65536.

(** [dropCR]: a line loses one trailing carriage return. *)
Fixpoint dropCR (line : string) : string :=
  match line with
  | EmptyString => EmptyString
  | String c EmptyString =>
      if Ascii.eqb c carriage_return then EmptyString else line
  | String c rest => String c (dropCR rest)
  end.

(** The scanner at work on the rest of its input, [held] bytes of the
    current line being already in its buffer.  The result is the current
    line, when the scanner gets to its end, and the lines after it.

    - A newline ends the current line.
    - At the end of the input a non-empty unterminated line is a last token.
    - The buffer holds at most [MaxScanTokenSize] bytes, the newline
      included.  When it is full and holds no newline, [Scan] gives up for
      good (ErrTooLong) and returns false: neither the current line nor
      anything after it is delivered. *)
Fixpoint scanFrom (held : N) (data : string) : option string * list string :=
  match data with
  | EmptyString => (if (held =? 0)%N then None else Some EmptyString, [])
  | String c rest =>
      if Ascii.eqb c newline then
        let '(line, lines) := scanFrom 0 rest in
        (Some EmptyString,
         match line with
         | Some l => dropCR l :: lines
         | None => lines
         end)
      else if (MaxScanTokenSize <=? held + 1)%N then (None, [])
      else
        let '(line, lines) := scanFrom (held + 1) rest in
        (option_map (String c) line, lines)
  end.

(** The values [scanner.Text()] takes in [for scanner.Scan() { ... }] over a
    [bufio.NewScanner(bytes.NewReader(data))] with the default split
    function ScanLines and the default buffer. *)
Definition ScanLines (data : string) : list string :=
  match scanFrom 0 data with
  | (Some l, lines) => dropCR l :: lines
  | (None, lines) => lines
  end.

End GoBufio.

Import GoStrings.

(** ** The data model *)

(** TrackInfo stores details of each audio track found in the input file. *)
Record TrackInfo : Type := mkTrackInfo {
  Index : string;     (* index of the track within the file *)
  Layout : string;    (* audio channel layout, e.g. "5.1", "7.1" *)
  Language : string;  (* language of the audio track *)
  Title : string      (* title of the track, if available *)
}.

Definition withTitle (t : TrackInfo) (title : string) : TrackInfo :=
  {| Index := Index t; Layout := Layout t; Language := Language t;
     Title := title |}.

(** ** extractTrackInfo: parsing the output of ffprobe *)

(** The body of the scanning loop: one line of output, appended to the
    tracks found so far when it has at least three fields. *)
Definition parseLine (tracks : list TrackInfo) (text : string)
  : list TrackInfo :=
  let parts := Split text "|" in
  if (3 <=? length parts)%nat then
    let track := {| Index := nth 0 parts ""; Layout := nth 1 parts "";
                    Language := nth 2 parts ""; Title := "" |} in
    let track :=
      if (3 <? length parts)%nat then withTitle track (nth 3 parts "")
      else track in
    append tracks [track]
  else tracks.

(** The loop [for scanner.Scan() { ... }] of extractTrackInfo. *)
Definition parseTracks (output : string) : list TrackInfo :=
  fold_left parseLine (GoBufio.ScanLines output) [].

(** The arguments extractTrackInfo hands to ffprobe. *)
Definition extractTrackInfo_args (file : string) : list string :=
  ["-loglevel"; "error"; "-select_streams"; "a";
   "-show_entries"; "stream=index,channel_layout:stream_tags=language,title";
   "-of"; "compact=p=0:nk=1"; file].

(** ** The audio filter and the side-car path of processTrack *)

Definition af_7_1 : string :=
  "volume=1.5, pan=stereo|FL=FL+0.707*FC+0.5*BL+0.3*SL+0.5*LFE|FR=FR+0.707*FC+0.5*BR+0.3*SR+0.5*LFE".

Definition af_default : string :=
  "volume=1.5, pan=stereo|FL=FL+0.707*FC+0.707*BL+0.5*LFE|FR=FR+0.707*FC+0.707*BR+0.5*LFE".

(** The arguments processTrack hands to ffmpeg, and the side-car path it
    checks beforehand (its local [enhancedFile]). *)
Definition processTrack_enhancedFile (inputFile : string) (track : TrackInfo)
  : string :=
  TrimSuffix inputFile ".mkv" ++ "_track" ++ Index track ++ "_enhanced.opus".

Definition processTrack_args (inputFile : string) (track : TrackInfo)
  : list string :=
  let af :=
    if HasPrefix (Layout track) "7.1" then af_7_1 else af_default in
  let enhancedFile := processTrack_enhancedFile inputFile track in
  ["-i"; inputFile;
   "-map"; "0:" ++ Index track;
   "-af"; af;
   "-acodec"; "libopus"; "-b:a"; "320k";
   "-vbr"; "on";
   "-compression_level"; "9";
   "-frame_duration"; "20";
   "-application"; "audio";
   "-metadata:s:a"; "language=" ++ Language track;
   "-metadata:s:a"; "title=2.1 Enhanced";
   "-y"; enhancedFile].

(** ** The argument list of mergeTracks *)

(** The local [enhancedFile] of the first loop of mergeTracks. *)
Definition mergeTracks_enhancedFile (inputFile : string) (track : TrackInfo)
  : string :=
  TrimSuffix inputFile ".mkv" ++ "_track" ++ Index track ++ "_enhanced.opus".

Definition mergeTracks_args (inputFile outputFile : string)
  (tracks : list TrackInfo) : list string :=
  let args := ["-i"; inputFile] in
  let args :=
    fold_left
      (fun args track =>
         let enhancedFile := mergeTracks_enhancedFile inputFile track in
         append args ["-i"; enhancedFile])
      tracks args in
  let args := append args ["-map"; "0:v"] in
  let args := append args ["-map"; "0:s?"] in
  let args :=
    fold_left
      (fun args i =>
         let args :=
           append args ["-map"; "0:a:" ++ itoa i; "-c:a"; "copy"] in
         append args ["-map"; itoa (1 + i) ++ ":a"; "-c:a"; "copy"])
      (seq 0 (length tracks)) args in
  append args ["-c:v"; "copy"; "-c:s"; "copy"; "-y"; outputFile].

(** The local [enhancedFile] of the loop of removeTemporaryFiles. *)
Definition removeTemporaryFiles_enhancedFile (inputFile : string)
  (track : TrackInfo) : string :=
  TrimSuffix inputFile ".mkv" ++ "_track" ++ Index track ++ "_enhanced.opus".

(** ** The operating system and the external tools

    The file system, ffprobe and ffmpeg are collaborators the program only
    calls: they are an arbitrary [System].  Every theorem below holds for
    every system, and [Sim] at the end of the file is a small concrete one.

    A command is described by how it ends.  The program has no timeout and
    cancels nothing: when a command never exits, the goroutine that waits
    for it waits for ever (a worker then never calls Done, and main stays
    in [wg.Wait()]).  Such a run has no end to describe: the model has the
    runs in which every command that is started comes to an end, and
    nothing below says that a run of the program ends. *)

(** What [os.Stat] answers: no error, an error [os.IsNotExist] recognises,
    or any other error. *)
Inductive StatResult : Type :=
| StatOk
| StatNotExist
| StatOtherError.

(** How a command ended: [cmd.Start] failed, [cmd.Wait] reported a failure
    (a non-zero exit status), or neither. *)
Inductive ExecStatus : Type :=
| Succeeded
| StartFailed (err : string)
| WaitFailed (err : string).

Record ExecResult : Type := mkExecResult {
  status : ExecStatus;
  combinedOutput : string;  (* stdout and stderr, as CombinedOutput has them *)
  stderrOutput : string     (* stderr alone *)
}.

(** The error of [cmd.Run] and [cmd.CombinedOutput], which start the command
    and wait for it. *)
Definition runError (r : ExecResult) : option string :=
  match status r with
  | Succeeded => None
  | StartFailed err => Some err
  | WaitFailed err => Some err
  end.

Record System : Type := mkSystem {
  OS : Type;
  os_Stat : string -> OS -> StatResult;
  os_Remove : string -> OS -> option string * OS;
  os_Exec : string -> list string -> OS -> ExecResult * OS;
  (* the goroutine scheduler: which of [n] runnable goroutines runs next
     (taken modulo [n]) *)
  os_Next : OS -> nat -> nat;
  (* how many bytes of a command's stderr the goroutine that copies it to the
     log has read when the pipe is closed under it *)
  os_StderrRead : OS -> string -> nat
}.

(** What the program does to the outside, in order. *)
Inductive Event : Type :=
| EvPrint (text : string)
| EvExec (name : string) (args : list string)
| EvRemove (path : string).

(** How the program ends: [os.Exit(code)] (code 0 when main returns), or
    blocked for ever in [wg.Wait()]. *)
Inductive Outcome : Type :=
| Exited (code : Z)
| Blocked.

Definition nl : string := String GoBufio.newline EmptyString.

(** What the goroutine of processTrack prints when it has read [read] from
    the stderr pipe of ffmpeg: [fmt.Println("FFmpeg Output:", scanner.Text())]
    for every line its scanner delivers. *)
Definition forwardedLines (read : string) : list string :=
  map (fun text => "FFmpeg Output: " ++ text ++ nl) (GoBufio.ScanLines read).

Section Program.

Variable sys : System.

Record World : Type := mkWorld {
  os : OS sys;
  trace : list Event;  (* oldest first *)
  wg : Z               (* the counter of main's sync.WaitGroup *)
}.

(** State passing: a computation takes the world and gives a result and the
    world after it. *)
Definition M (A : Type) : Type := World -> A * World.

Definition ret {A : Type} (a : A) : M A := fun w => (a, w).

Definition bind {A B : Type} (m : M A) (k : A -> M B) : M B :=
  fun w => let '(a, w') := m w in k a w'.

Notation "x <- m ;; k" := (bind m (fun x => k))
  (at level 61, m at next level, right associativity).
Notation "m ;;; k" := (bind m (fun _ => k))
  (at level 61, right associativity).

Definition emit (e : Event) : M unit :=
  fun w => (tt, {| os := os w; trace := append (trace w) [e]; wg := wg w |}).

(** [fmt.Printf] with its format already expanded. *)
Definition Printf (text : string) : M unit := emit (EvPrint text).

(** [fmt.Println]: the operands separated by spaces, and a newline. *)
Definition Println (operands : list string) : M unit :=
  emit (EvPrint (Join operands " " ++ nl)).

Definition Stat (path : string) : M StatResult :=
  fun w => (os_Stat sys path (os w), w).

Definition Remove (path : string) : M (option string) :=
  fun w =>
    let '(err, o) := os_Remove sys path (os w) in
    (err, {| os := o; trace := append (trace w) [EvRemove path];
             wg := wg w |}).

(** [exec.Command(name, args...)], started and waited for. *)
Definition Exec (name : string) (args : list string) : M ExecResult :=
  fun w =>
    let '(r, o) := os_Exec sys name args (os w) in
    (r, {| os := o; trace := append (trace w) [EvExec name args];
           wg := wg w |}).

(** [go func() { scanner := bufio.NewScanner(stderrPipe); ... }()] of
    processTrack.  [cmd.Wait] closes the pipe when the command has exited,
    whether the goroutine has read everything or not, so that the goroutine
    gets the first bytes of what ffmpeg wrote, as many as the system says,
    and prints the lines its scanner makes of them.  The program never waits
    for this goroutine.  Here its lines come where the worker waits for the
    command; in the program they may come later, between the lines of other
    goroutines. *)
Definition forwardStderr (r : ExecResult) : M unit :=
  fun w =>
    let read :=
      substring 0 (os_StderrRead sys (os w) (stderrOutput r))
        (stderrOutput r) in
    (tt, {| os := os w;
            trace := append (trace w) (map EvPrint (forwardedLines read));
            wg := wg w |}).

Definition wg_Add (delta : Z) : M unit :=
  fun w => (tt, {| os := os w; trace := trace w; wg := (wg w + delta)%Z |}).

Definition wg_Done : M unit := wg_Add (-1).

(** [var wg sync.WaitGroup]: a new WaitGroup, its counter at zero. *)
Definition wg_New : M unit :=
  fun w => (tt, {| os := os w; trace := trace w; wg := 0 |}).

(** extractTrackInfo uses ffprobe to extract audio track details from a
    video file.  The result is Go's pair of the tracks and the error. *)
Definition extractTrackInfo (file : string)
  : M (list TrackInfo * option string) :=
  st <- Stat file ;;
  match st with
  | StatNotExist => ret ([], Some ("file does not exist: " ++ file))
  | _ =>
      r <- Exec "ffprobe" (extractTrackInfo_args file) ;;
      match runError r with
      | Some err =>
          ret ([], Some ("ffprobe failed with error: " ++ err ++ nl
                           ++ "Output: " ++ combinedOutput r))
      | None => ret (parseTracks (combinedOutput r), None)
      end
  end.

(** processTrack processes each audio track individually using ffmpeg.
    [defer wg.Done()] runs on every way out.  When ffmpeg has started, the
    goroutine of [forwardStderr] copies its stderr to the log. *)
Definition processTrack (inputFile : string) (track : TrackInfo) : M unit :=
  (let enhancedFile := processTrack_enhancedFile inputFile track in
   st <- Stat enhancedFile ;;
   match st with
   | StatOk =>
       Printf ("Enhanced track " ++ Index track
                 ++ " already exists, skipping processing" ++ nl)
   | _ =>
       r <- Exec "ffmpeg" (processTrack_args inputFile track) ;;
       match status r with
       | StartFailed err =>
           Printf ("Error starting ffmpeg for track " ++ Index track ++ ": "
                     ++ err ++ nl)
       | WaitFailed err =>
           forwardStderr r ;;;
           Printf ("FFmpeg command for track " ++ Index track ++ " failed: "
                     ++ err ++ nl)
       | Succeeded => forwardStderr r
       end
   end) ;;;
  wg_Done.

(** mergeTracks combines video, original audio, and enhanced audio tracks
    into a single file. *)
Definition mergeTracks (inputFile outputFile : string)
  (tracks : list TrackInfo) : M (option string) :=
  let args := mergeTracks_args inputFile outputFile tracks in
  Println ["ffmpeg"; Join args " "] ;;;
  r <- Exec "ffmpeg" args ;;
  match runError r with
  | Some err =>
      ret (Some ("ffmpeg command failed: " ++ err ++ nl ++ "stderr:" ++ nl
                   ++ stderrOutput r))
  | None => ret None
  end.

(** removeTemporaryFiles deletes all temporary enhanced audio files. *)
Fixpoint removeTemporaryFiles (inputFile : string) (tracks : list TrackInfo)
  : M (option string) :=
  match tracks with
  | [] => ret None
  | track :: tracks' =>
      let enhancedFile := removeTemporaryFiles_enhancedFile inputFile track in
      err <- Remove enhancedFile ;;
      match err with
      | Some e =>
          Printf ("Failed to delete temporary file " ++ enhancedFile ++ ": "
                    ++ e ++ nl) ;;;
          ret (Some e)
      | None =>
          Printf ("Temporary file " ++ enhancedFile
                    ++ " removed successfully." ++ nl) ;;;
          removeTemporaryFiles inputFile tracks'
      end
  end.

(** The goroutines main has started, each running processTrack on its
    track.  The scheduler picks which one runs next; a goroutine runs to
    its end before the next one is picked. *)
Fixpoint runGoroutines (inputFile : string) (n : nat)
  (runnable : list TrackInfo) : M unit :=
  match n with
  | O => ret tt
  | S n' =>
      fun w =>
        let k := (os_Next sys (os w) (length runnable)
                    mod length runnable)%nat in
        match nth_error runnable k with
        | None => (tt, w)
        | Some track =>
            (processTrack inputFile track ;;;
             runGoroutines inputFile n'
               (firstn k runnable +++ skipn (S k) runnable)) w
        end
  end.

(** Lines 38 to 43 of main: [var wg sync.WaitGroup], the loop
    [for _, track := range trackInfos { wg.Add(1); go processTrack(...) }]
    and [wg.Wait()].  The result is true when the counter is back at zero
    once every goroutine has run, false when main would wait for ever. *)
Definition fanOut (inputFile : string) (trackInfos : list TrackInfo)
  : M bool :=
  wg_New ;;;
  fold_right (fun _ rest => wg_Add 1 ;;; rest) (ret tt) trackInfos ;;;
  runGoroutines inputFile (length trackInfos) trackInfos ;;;
  fun w => ((wg w =? 0)%Z, w).

Definition main (Args : list string) : M Outcome :=
  if (length Args <? 2)%nat then
    Println ["Usage: go run script.go <input.mkv>"] ;;;
    ret (Exited 1)
  else
    let inputFile := nth 1 Args "" in
    let outputFile := TrimSuffix inputFile ".mkv" ++ "_enhanced.mkv" in
    r <- extractTrackInfo inputFile ;;
    let '(trackInfos, err) := r in
    match err with
    | Some e =>
        Println ["Error extracting track info:"; e] ;;;
        ret (Exited 1)
    | None =>
        released <- fanOut inputFile trackInfos ;;
        if released then
          err <- mergeTracks inputFile outputFile trackInfos ;;
          match err with
          | Some e =>
              Println ["Error merging tracks:"; e] ;;;
              ret (Exited 1)
          | None =>
              removeTemporaryFiles inputFile trackInfos ;;;
              Println ["Enhanced MKV generated:"; outputFile] ;;;
              ret (Exited 0)
          end
        else ret Blocked
    end.

End Program.

Arguments ret {sys A} _ _.
Arguments bind {sys A B} _ _ _.
Arguments emit {sys} _ _.
Arguments Printf {sys} _ _.
Arguments Println {sys} _ _.
Arguments Stat {sys} _ _.
Arguments Remove {sys} _ _.
Arguments Exec {sys} _ _ _.
Arguments forwardStderr {sys} _ _.
Arguments wg_Add {sys} _ _.
Arguments wg_Done {sys} _.
Arguments wg_New {sys} _.
Arguments os {sys} _.
Arguments trace {sys} _.
Arguments wg {sys} _.
Arguments mkWorld {sys} _ _ _.

(** ** Reading an ffmpeg command line

    ffmpeg's arguments here come in pairs of an option and its value (the
    last pair being "-y" and the output path).  [optionValues opt args] are
    the values given with [opt], in order: the inputs for "-i" (input #0
    first) and the stream mappings for "-map". *)
Fixpoint optionValues (opt : string) (args : list string) : list string :=
  match args with
  | o :: v :: rest =>
      if o =? opt then v :: optionValues opt rest else optionValues opt rest
  | _ => []
  end.

(** ** A small concrete system

    A file system that is a list of existing paths, and a list of paths
    that can be neither written nor deleted; ffprobe answers with a fixed
    result; ffmpeg succeeds when all its inputs exist and its output (the
    last argument) can be written, and then creates the output. *)
Module Sim.

Record State : Type := mkState {
  files : list string;
  unwritable : list string;
  probe : ExecResult
}.

Definition mem (path : string) (paths : list string) : bool :=
  existsb (String.eqb path) paths.

Definition stat (path : string) (st : State) : StatResult :=
  if mem path (files st) then StatOk else StatNotExist.

Definition remove (path : string) (st : State) : option string * State :=
  if mem path (unwritable st) then
    (Some ("remove " ++ path ++ ": operation not permitted"), st)
  else if mem path (files st) then
    (None,
     {| files := filter (fun p => negb (p =? path)) (files st);
        unwritable := unwritable st; probe := probe st |})
  else (Some ("remove " ++ path ++ ": no such file or directory"), st).

Definition exec (name : string) (args : list string) (st : State)
  : ExecResult * State :=
  if name =? "ffprobe" then (probe st, st)
  else
    let output := last args "" in
    if forallb (fun p => mem p (files st)) (optionValues "-i" args)
       && negb (mem output (unwritable st))
    then
      ({| status := Succeeded; combinedOutput := ""; stderrOutput := "" |},
       {| files := output :: files st;
          unwritable := unwritable st; probe := probe st |})
    else
      ({| status := WaitFailed "exit status 1";
          combinedOutput := "No such file or directory";
          stderrOutput := "No such file or directory" |}, st).

Definition system : System :=
  {| OS := State; os_Stat := stat; os_Remove := remove; os_Exec := exec;
     os_Next := fun st _ => length (files st);
     os_StderrRead := fun _ stderr => String.length stderr |}.

Definition world (paths blocked : list string) (r : ExecResult)
  : World system :=
  mkWorld (sys := system)
    {| files := paths; unwritable := blocked; probe := r |} [] 0.

(** ffprobe's answer for a file with a 5.1 English and a 7.1 Japanese
    track. *)
Definition twoTracks : ExecResult :=
  {| status := Succeeded;
     combinedOutput := "1|5.1|eng|Surround" ++ nl ++ "2|7.1|jpn" ++ nl;
     stderrOutput := "" |}.

End Sim.

(** ** What the specification calls things *)

(** The side-car path of a track as the specification names it: the input
    path without a trailing ".mkv" (the whole input path when it does not
    end in ".mkv"), then "_track", the index, and "_enhanced.opus". *)
Definition namedSideCar (inputFile : string) (track : TrackInfo)
  (path : string) : Prop :=
  (forall stem, inputFile = stem ++ ".mkv" ->
     path = stem ++ "_track" ++ Index track ++ "_enhanced.opus") /\
  ((forall stem, inputFile <> stem ++ ".mkv") ->
     path = inputFile ++ "_track" ++ Index track ++ "_enhanced.opus").

(** The arguments that keep original audio stream [i] and the enhanced
    stream of input [1 + i], both copied: one round of the second loop of
    mergeTracks. *)
Definition audioMaps (i : nat) : list string :=
  ["-map"; "0:a:" ++ itoa i; "-c:a"; "copy";
   "-map"; itoa (1 + i) ++ ":a"; "-c:a"; "copy"].

(** The paths a trace deletes, in order. *)
Fixpoint removals (events : list Event) : list string :=
  match events with
  | [] => []
  | EvRemove path :: rest => path :: removals rest
  | _ :: rest => removals rest
  end.

(** The commands a trace runs, in order. *)
Fixpoint commands (events : list Event) : list (string * list string) :=
  match events with
  | [] => []
  | EvExec name args :: rest => (name, args) :: commands rest
  | _ :: rest => commands rest
  end.

(** What a trace prints, in order. *)
Fixpoint printed (events : list Event) : list string :=
  match events with
  | [] => []
  | EvPrint text :: rest => text :: printed rest
  | _ :: rest => printed rest
  end.

(** The worker of a track has run when the trace has its message that the
    side-car exists already, or its call of ffmpeg. *)
Definition workerRan (inputFile : string) (track : TrackInfo)
  (events : list Event) : Prop :=
  In (EvPrint ("Enhanced track " ++ Index track
                 ++ " already exists, skipping processing" ++ nl)) events \/
  In (EvExec "ffmpeg" (processTrack_args inputFile track)) events.

(** What the worker of a track adds to the trace when it calls ffmpeg,
    ffmpeg ends with [st] and the goroutine that copies its stderr has read
    [read]. *)
Definition transcodeEvents (inputFile : string) (track : TrackInfo)
  (st : ExecStatus) (read : string) : list Event :=
  EvExec "ffmpeg" (processTrack_args inputFile track)
    :: match st with
       | Succeeded => map EvPrint (forwardedLines read)
       | StartFailed err =>
           [EvPrint ("Error starting ffmpeg for track " ++ Index track ++ ": "
                       ++ err ++ nl)]
       | WaitFailed err =>
           map EvPrint (forwardedLines read)
             +++ [EvPrint ("FFmpeg command for track " ++ Index track
                             ++ " failed: " ++ err ++ nl)]
       end.

(** The part of its stderr the goroutine of a command gets to read. *)
Definition stderrRead (sys : System) (o : OS sys) (r : ExecResult) : string :=
  substring 0 (os_StderrRead sys o (stderrOutput r)) (stderrOutput r).

(** [removedAll sys paths o o']: deleting [paths] one after the other from
    [o] succeeds every time and leaves [o']. *)
Inductive removedAll (sys : System) : list string -> OS sys -> OS sys -> Prop :=
| removedAll_nil (o : OS sys) : removedAll sys [] o o
| removedAll_cons (path : string) (paths : list string) (o o1 o2 : OS sys) :
    os_Remove sys path o = (None, o1) ->
    removedAll sys paths o1 o2 ->
    removedAll sys (path :: paths) o o2.

(** The lines of a text as the specification means them: the text cut at
    every newline, a last piece counting as a line only when it is not
    empty. *)
Fixpoint linesOf (pieces : list string) : list string :=
  match pieces with
  | [] => []
  | [piece] => if piece =? "" then [] else [piece]
  | piece :: rest => piece :: linesOf rest
  end.

Definition rawLines (output : string) : list string :=
  linesOf (Split output GoBufio.newline).

(** A line ends at a newline or at a carriage return and a newline. *)
Definition textLines (output : string) : list string :=
  map GoBufio.dropCR (rawLines output).

(** A line with at least three fields. *)
Definition wellFormed (line : string) : bool :=
  (3 <=? length (Split line "|"))%nat.

(** The descriptor of a line: fields 0, 1 and 2 are the index, the layout
    and the language; field 3 is the title when there is one. *)
Definition descriptorOf (line : string) : list TrackInfo :=
  match Split line "|" with
  | index :: layout :: language :: rest =>
      [{| Index := index; Layout := layout; Language := language;
          Title := hd "" rest |}]
  | _ => []
  end.

(** [doubled k s] is [2^k] copies of [s]. *)
Fixpoint doubled (k : nat) (s : string) : string :=
  match k with
  | O => s
  | S k' => doubled k' (s ++ s)
  end.

(** An ffprobe output of two lines, the first track having a title of 65536
    bytes. *)
Definition longTitleOutput : string :=
  "0|5.1|eng|" ++ doubled 16 "a" ++ nl ++ "1|7.1|jpn" ++ nl.

(** A piece of text the buffer of the scanner can hold with its newline. *)
Definition short (piece : string) : Prop :=
  (N.of_nat (String.length piece) < GoBufio.MaxScanTokenSize)%N.

(** The current line of the scanner, [held] bytes of it being in the
    buffer, when the rest of the input cuts into [pieces]. *)
Definition currentLine (held : N) (pieces : list string) : option string :=
  match pieces with
  | [] => None
  | [piece] => if (held =? 0)%N && (piece =? "") then None else Some piece
  | piece :: _ => Some piece
  end.

Definition emitLine (line : option string) (lines : list string)
  : list string :=
  match line with
  | Some l => GoBufio.dropCR l :: lines
  | None => lines
  end.

(** ** Names for the further properties *)

(** The byte [c] occurs in [s]. *)
Definition occurs (c : ascii) (s : string) : Prop :=
  In c (list_ascii_of_string s).

(** Whether the buffer of the scanner can hold a line with its newline. *)
Definition shortb (piece : string) : bool :=
  (N.of_nat (String.length piece) <? GoBufio.MaxScanTokenSize)%N.

(** The elements at the front of a list that pass a test. *)
Fixpoint takeWhile {A : Type} (test : A -> bool) (l : list A) : list A :=
  match l with
  | [] => []
  | x :: rest => if test x then x :: takeWhile test rest else []
  end.

(** The four fields of a track joined by "|": the line ffprobe's compact
    writer gives for the track. *)
Definition compactLine (track : TrackInfo) : string :=
  Join [Index track; Layout track; Language track; Title track] "|".

(** The lines of a catalog, each ended by a newline, or by a carriage return
    and a newline. *)
Definition compactOutput (crlf : bool) (tracks : list TrackInfo) : string :=
  String.concat ""
    (map (fun track =>
            compactLine track
              ++ (if crlf then String GoBufio.carriage_return nl else nl))
       tracks).

(** A field ffprobe's compact writer can print as it is: without "|",
    newline or carriage return. *)
Definition plainField (field : string) : Prop :=
  ~ occurs "|" field /\ ~ occurs GoBufio.newline field /\
  ~ occurs GoBufio.carriage_return field.

(** A track of plain fields whose line, with a carriage return, fits the
    buffer of the scanner. *)
Definition plainTrack (track : TrackInfo) : Prop :=
  Forall plainField
    [Index track; Layout track; Language track; Title track] /\
  (N.of_nat (String.length (compactLine track)) + 1
   < GoBufio.MaxScanTokenSize)%N.

(** The command of the worker of a track. *)
Definition transcodeCommand (inputFile : string) (track : TrackInfo)
  : string * list string :=
  ("ffmpeg", processTrack_args inputFile track).

(** ** Strings *)

Section StringFacts.

Lemma substring_0_length (s : string) : substring 0 (String.length s) s = s.
Proof. induction s as [|c s IH]; simpl; [reflexivity | now rewrite IH]. Qed.

Lemma substring_0_append (s t : string) :
  substring 0 (String.length s) (s ++ t) = s.
Proof.
  induction s as [|c s IH]; simpl.
  - now destruct t.
  - now rewrite IH.
Qed.

Lemma substring_skip_append (s t : string) (m : nat) :
  substring (String.length s) m (s ++ t) = substring 0 m t.
Proof. induction s as [|c s IH]; simpl; [reflexivity | exact IH]. Qed.

Lemma length_append (s t : string) :
  String.length (s ++ t) = String.length s + String.length t.
Proof. induction s as [|c s IH]; simpl; [reflexivity | now rewrite IH]. Qed.

Lemma append_assoc (s t u : string) : (s ++ t) ++ u = s ++ t ++ u.
Proof. induction s as [|c s IH]; simpl; [reflexivity | now rewrite IH]. Qed.

Lemma substring_cut (s : string) (k : nat) :
  k <= String.length s ->
  s = substring 0 k s ++ substring k (String.length s - k) s.
Proof.
  revert k; induction s as [|c s IH]; intros k Hk; simpl in *.
  - assert (k = 0) by lia; subst; reflexivity.
  - destruct k as [|k]; simpl.
    + now rewrite substring_0_length.
    + f_equal. apply IH. lia.
Qed.

Lemma HasSuffix_append (stem suffix : string) :
  HasSuffix (stem ++ suffix) suffix = true.
Proof.
  unfold HasSuffix, len. rewrite length_append.
  replace (String.length stem + String.length suffix - String.length suffix)
    with (String.length stem) by lia.
  rewrite substring_skip_append, substring_0_length, String.eqb_refl.
  apply andb_true_iff; split; [apply Nat.leb_le; lia | reflexivity].
Qed.

Lemma HasSuffix_inv (s suffix : string) :
  HasSuffix s suffix = true ->
  s = substring 0 (len s - len suffix) s ++ suffix.
Proof.
  unfold HasSuffix, len. intros H.
  apply andb_true_iff in H as [Hlen Heq].
  apply Nat.leb_le in Hlen. apply String.eqb_eq in Heq.
  pose proof (substring_cut s (String.length s - String.length suffix)) as C.
  replace (String.length s - (String.length s - String.length suffix))
    with (String.length suffix) in C by lia.
  rewrite Heq in C. apply C. lia.
Qed.

Lemma TrimSuffix_append (stem suffix : string) :
  TrimSuffix (stem ++ suffix) suffix = stem.
Proof.
  unfold TrimSuffix. rewrite HasSuffix_append.
  unfold len. rewrite length_append.
  replace (String.length stem + String.length suffix - String.length suffix)
    with (String.length stem) by lia.
  apply substring_0_append.
Qed.

Lemma TrimSuffix_other (s suffix : string) :
  (forall stem, s <> stem ++ suffix) -> TrimSuffix s suffix = s.
Proof.
  intros H. unfold TrimSuffix.
  destruct (HasSuffix s suffix) eqn:E; [|reflexivity].
  exfalso. exact (H _ (HasSuffix_inv _ _ E)).
Qed.

Lemma HasPrefix_append (prefix rest : string) :
  HasPrefix (prefix ++ rest) prefix = true.
Proof.
  unfold HasPrefix. induction prefix as [|c p IH]; simpl.
  - now destruct rest.
  - destruct (ascii_dec c c); [exact IH | congruence].
Qed.

Lemma HasPrefix_inv (s prefix : string) :
  HasPrefix s prefix = true -> exists rest, s = prefix ++ rest.
Proof.
  unfold HasPrefix. revert s; induction prefix as [|c p IH]; intros s H.
  - exists s; reflexivity.
  - destruct s as [|d s]; simpl in H; [discriminate|].
    destruct (ascii_dec c d); [|discriminate]. subst d.
    destruct (IH _ H) as [rest ->]. exists rest; reflexivity.
Qed.

End StringFacts.

Lemma namedSideCar_intro (inputFile : string) (track : TrackInfo) :
  namedSideCar inputFile track
    (TrimSuffix inputFile ".mkv" ++ "_track" ++ Index track
       ++ "_enhanced.opus").
Proof.
  split.
  - intros stem ->. now rewrite TrimSuffix_append.
  - intros H. now rewrite TrimSuffix_other.
Qed.

(** ** processTrack: the choice of the audio filter *)

(** C3.  The audio filter processTrack asks ffmpeg for is decided by the
    channel layout of the track alone.  A layout that begins with "7.1"
    gets the 7.1 formula (volume 1.5, FL = FL + 0.707 FC + 0.5 BL + 0.3 SL
    + 0.5 LFE, and the same on the right); every layout that does not,
    the empty one included, gets the default formula (volume 1.5, FL = FL
    + 0.707 FC + 0.707 BL + 0.5 LFE, and the same on the right).  Two calls
    on tracks of the same layout ask for the same filter. *)
Theorem processTrack_filter_by_layout (inputFile : string) (track : TrackInfo) :
  (forall rest, Layout track = "7.1" ++ rest ->
     optionValues "-af" (processTrack_args inputFile track) =
     ["volume=1.5, pan=stereo|FL=FL+0.707*FC+0.5*BL+0.3*SL+0.5*LFE|FR=FR+0.707*FC+0.5*BR+0.3*SR+0.5*LFE"]) /\
  ((forall rest, Layout track <> "7.1" ++ rest) ->
     optionValues "-af" (processTrack_args inputFile track) =
     ["volume=1.5, pan=stereo|FL=FL+0.707*FC+0.707*BL+0.5*LFE|FR=FR+0.707*FC+0.707*BR+0.5*LFE"]) /\
  (forall inputFile' track', Layout track' = Layout track ->
     optionValues "-af" (processTrack_args inputFile' track') =
     optionValues "-af" (processTrack_args inputFile track)).
Proof.
  assert (Haf : forall i t,
             optionValues "-af" (processTrack_args i t) =
             [if HasPrefix (Layout t) "7.1" then af_7_1 else af_default])
    by reflexivity.
  repeat split.
  - intros rest E. rewrite Haf, E, HasPrefix_append. reflexivity.
  - intros H. rewrite Haf.
    destruct (HasPrefix (Layout track) "7.1") eqn:E; [|reflexivity].
    destruct (HasPrefix_inv _ _ E) as [rest Hrest]. now elim (H rest).
  - intros i' t' E. now rewrite !Haf, E.
Qed.

Lemma processTrack_filter_by_layout_witness :
  optionValues "-af"
    (processTrack_args "film.mkv" (mkTrackInfo "2" "7.1(wide)" "jpn" "")) =
  [af_7_1] /\
  optionValues "-af" (processTrack_args "film.mkv" (mkTrackInfo "1" "" "" ""))
  = [af_default] /\
  optionValues "-af"
    (processTrack_args "other.mkv" (mkTrackInfo "9" "5.1" "eng" "a")) =
  optionValues "-af"
    (processTrack_args "film.mkv" (mkTrackInfo "1" "5.1" "fra" "b")).
Proof.
  split; [|split].
  - apply (proj1 (processTrack_filter_by_layout "film.mkv"
                    (mkTrackInfo "2" "7.1(wide)" "jpn" "")) "(wide)").
    reflexivity.
  - apply (proj1 (proj2 (processTrack_filter_by_layout "film.mkv"
                           (mkTrackInfo "1" "" "" "")))).
    intros rest; discriminate.
  - apply (proj2 (proj2 (processTrack_filter_by_layout "film.mkv"
                           (mkTrackInfo "1" "5.1" "fra" "b")))).
    reflexivity.
Defined.

(** ** mergeTracks: the argument list *)

Section MergeArgs.

Variables inputFile outputFile : string.

Lemma fold_left_append {A B : Type} (f : B -> list A) (l : list B)
  (init : list A) :
  fold_left (fun acc x => append acc (f x)) l init = init +++ flat_map f l.
Proof.
  revert init; induction l as [|x l IH]; intros init; simpl.
  - now rewrite app_nil_r.
  - rewrite IH. unfold append. now rewrite <- app_assoc.
Qed.

Lemma fold_left_audioMaps (l : list nat) (init : list string) :
  fold_left
    (fun args i =>
       let args := append args ["-map"; "0:a:" ++ itoa i; "-c:a"; "copy"] in
       append args ["-map"; itoa (1 + i) ++ ":a"; "-c:a"; "copy"])
    l init
  = init +++ flat_map audioMaps l.
Proof.
  revert init; induction l as [|i l IH]; intros init; simpl.
  - now rewrite app_nil_r.
  - rewrite IH. unfold append, audioMaps. now rewrite <- !app_assoc.
Qed.

Lemma mergeTracks_args_eq (tracks : list TrackInfo) :
  mergeTracks_args inputFile outputFile tracks =
  ["-i"; inputFile]
    +++ flat_map (fun track => ["-i"; mergeTracks_enhancedFile inputFile track])
          tracks
    +++ ["-map"; "0:v"; "-map"; "0:s?"]
    +++ flat_map audioMaps (seq 0 (length tracks))
    +++ ["-c:v"; "copy"; "-c:s"; "copy"; "-y"; outputFile].
Proof.
  unfold mergeTracks_args.
  rewrite (fold_left_append
             (fun track => ["-i"; mergeTracks_enhancedFile inputFile track])).
  rewrite fold_left_audioMaps. unfold append.
  repeat rewrite <- app_assoc. reflexivity.
Qed.

Lemma inputs_of_sidecars (tracks : list TrackInfo) (rest : list string) :
  optionValues "-i"
    (flat_map (fun track => ["-i"; mergeTracks_enhancedFile inputFile track])
       tracks +++ rest)
  = map (mergeTracks_enhancedFile inputFile) tracks
      +++ optionValues "-i" rest.
Proof. induction tracks as [|t l IH]; simpl; [|rewrite IH]; reflexivity. Qed.

Lemma maps_of_sidecars (tracks : list TrackInfo) (rest : list string) :
  optionValues "-map"
    (flat_map (fun track => ["-i"; mergeTracks_enhancedFile inputFile track])
       tracks +++ rest)
  = optionValues "-map" rest.
Proof. induction tracks as [|t l IH]; simpl; [|rewrite IH]; reflexivity. Qed.

Lemma inputs_of_audioMaps (l : list nat) (rest : list string) :
  optionValues "-i" (flat_map audioMaps l +++ rest) = optionValues "-i" rest.
Proof. induction l as [|i l IH]; simpl; [|rewrite IH]; reflexivity. Qed.

Lemma maps_of_audioMaps (l : list nat) (rest : list string) :
  optionValues "-map" (flat_map audioMaps l +++ rest)
  = flat_map (fun i => ["0:a:" ++ itoa i; itoa (1 + i) ++ ":a"]) l
      +++ optionValues "-map" rest.
Proof. induction l as [|i l IH]; simpl; [|rewrite IH]; reflexivity. Qed.

Lemma mergeTracks_inputs (tracks : list TrackInfo) :
  optionValues "-i" (mergeTracks_args inputFile outputFile tracks)
  = inputFile :: map (mergeTracks_enhancedFile inputFile) tracks.
Proof.
  rewrite mergeTracks_args_eq.
  cbn [app optionValues]. rewrite String.eqb_refl.
  rewrite inputs_of_sidecars. f_equal.
  cbn [app optionValues].
  replace ("-map" =? "-i") with false by reflexivity.
  rewrite inputs_of_audioMaps. cbn. now rewrite app_nil_r.
Qed.

(** C1.  For a catalog of any length N, mergeTracks gives ffmpeg the
    original file as input #0 and the side-car files of the tracks as inputs
    #1..#N in catalog order; it maps the video stream "0:v" and the optional
    subtitle streams "0:s?" of input #0, and then, track after track in
    catalog order, original audio stream i of input #0 directly followed by
    the audio of input #(i+1), each with "-c:a copy".  The command ends by
    copying video and subtitles and overwriting the output. *)
Theorem mergeTracks_args_interleaved (tracks : list TrackInfo) :
  let args := mergeTracks_args inputFile outputFile tracks in
  args =
  ["-i"; inputFile]
    +++ flat_map (fun track => ["-i"; mergeTracks_enhancedFile inputFile track])
          tracks
    +++ ["-map"; "0:v"; "-map"; "0:s?"]
    +++ flat_map
          (fun i => ["-map"; "0:a:" ++ itoa i; "-c:a"; "copy";
                     "-map"; itoa (i + 1) ++ ":a"; "-c:a"; "copy"])
          (seq 0 (length tracks))
    +++ ["-c:v"; "copy"; "-c:s"; "copy"; "-y"; outputFile] /\
  optionValues "-i" args =
  inputFile :: map (mergeTracks_enhancedFile inputFile) tracks /\
  optionValues "-map" args =
  "0:v" :: "0:s?"
    :: flat_map (fun i => ["0:a:" ++ itoa i; itoa (i + 1) ++ ":a"])
         (seq 0 (length tracks)).
Proof.
  intros args; subst args.
  rewrite mergeTracks_args_eq.
  split; [|split].
  - do 3 f_equal. f_equal. apply flat_map_ext. intros i.
    unfold audioMaps. now rewrite Nat.add_comm.
  - rewrite <- mergeTracks_args_eq. apply mergeTracks_inputs.
  - cbn [app optionValues].
    replace ("-i" =? "-map") with false by reflexivity.
    rewrite maps_of_sidecars. cbn [app optionValues].
    rewrite String.eqb_refl. do 2 f_equal.
    rewrite maps_of_audioMaps. cbn. rewrite app_nil_r.
    apply flat_map_ext. intros i. now rewrite (Nat.add_comm i 1).
Qed.

End MergeArgs.

Example mergeTracks_args_0 :
  mergeTracks_args "film.mkv" "film_enhanced.mkv" [] =
  ["-i"; "film.mkv"; "-map"; "0:v"; "-map"; "0:s?";
   "-c:v"; "copy"; "-c:s"; "copy"; "-y"; "film_enhanced.mkv"].
Proof. reflexivity. Qed.

Example mergeTracks_maps_1 :
  optionValues "-map"
    (mergeTracks_args "film.mkv" "film_enhanced.mkv"
       [mkTrackInfo "1" "5.1" "eng" ""]) =
  ["0:v"; "0:s?"; "0:a:0"; "1:a"].
Proof. reflexivity. Qed.

Example mergeTracks_maps_3 :
  optionValues "-map"
    (mergeTracks_args "film.mkv" "film_enhanced.mkv"
       [mkTrackInfo "1" "5.1" "eng" ""; mkTrackInfo "2" "7.1" "jpn" "";
        mkTrackInfo "4" "" "" ""]) =
  ["0:v"; "0:s?"; "0:a:0"; "1:a"; "0:a:1"; "2:a"; "0:a:2"; "3:a"].
Proof. reflexivity. Qed.

(** ** extractTrackInfo: the catalog of an ffprobe output *)

Section Catalog.

Import GoBufio.

Lemma Split_not_nil (s : string) (sep : ascii) : Split s sep <> [].
Proof.
  destruct s as [|c s]; simpl; [discriminate|].
  destruct (Ascii.eqb c sep); [discriminate|].
  destruct (Split s sep); discriminate.
Qed.

Lemma In_linesOf (pieces : list string) (piece : string) :
  In piece pieces -> piece = "" \/ In piece (linesOf pieces).
Proof.
  induction pieces as [|p rest IH]; intros H; [contradiction|].
  destruct rest as [|q rest].
  - destruct H as [->|[]]. simpl.
    destruct (String.eqb_spec piece ""); [now left | right; now left].
  - destruct H as [->|H].
    + right; now left.
    + destruct (IH H) as [E|E]; [now left | right; now right].
Qed.

Lemma emitLine_currentLine (pieces : list string) :
  emitLine (currentLine 0 pieces) (map dropCR (linesOf (tl pieces)))
  = map dropCR (linesOf pieces).
Proof.
  destruct pieces as [|p [|q rest]]; simpl; try reflexivity.
  destruct (p =? ""); reflexivity.
Qed.

Lemma scanFrom_short (data : string) :
  forall held : N,
    (held + N.of_nat (String.length (hd "" (Split data newline)))
     < MaxScanTokenSize)%N ->
    Forall short (tl (Split data newline)) ->
    scanFrom held data =
    (currentLine held (Split data newline),
     map dropCR (linesOf (tl (Split data newline)))).
Proof.
  induction data as [|c rest IH]; intros held Hfirst Hrest.
  - simpl. destruct (held =? 0)%N; reflexivity.
  - cbn [scanFrom Split] in *.
    destruct (Ascii.eqb c newline) eqn:Ec.
    + cbn [hd tl] in *.
      assert (Hhd : (0 + N.of_nat (String.length (hd "" (Split rest newline)))
                     < MaxScanTokenSize)%N).
      { destruct (Split rest newline) as [|p ps]; [reflexivity|].
        inversion Hrest; subst. simpl. assumption. }
      assert (Htl : Forall short (tl (Split rest newline))).
      { destruct (Split rest newline) as [|p ps]; [constructor|].
        inversion Hrest; subst. assumption. }
      rewrite (IH 0%N Hhd Htl).
      fold (emitLine (currentLine 0 (Split rest newline))
              (map dropCR (linesOf (tl (Split rest newline))))).
      rewrite emitLine_currentLine.
      pose proof (Split_not_nil rest newline) as Hne.
      destruct (Split rest newline) as [|p ps]; [congruence|]. reflexivity.
    + pose proof (Split_not_nil rest newline) as Hne.
      destruct (Split rest newline) as [|p ps] eqn:Es; [congruence|].
      cbn [hd tl String.length] in *.
      destruct (MaxScanTokenSize <=? held + 1)%N eqn:Emax.
      { apply N.leb_le in Emax. lia. }
      rewrite (IH (held + 1)%N); cbn [hd tl]; [|lia|assumption].
      destruct ps as [|q qs]; cbn [currentLine option_map].
      * replace ((held + 1 =? 0)%N) with false
          by (symmetry; apply N.eqb_neq; lia).
        cbn. now rewrite andb_false_r.
      * reflexivity.
Qed.

(** Within the buffer of the scanner the loop sees the lines of the text. *)
Lemma ScanLines_short (output : string) :
  (forall line, In line (rawLines output) -> short line) ->
  ScanLines output = textLines output.
Proof.
  intros H. unfold ScanLines, textLines, rawLines in *.
  assert (Hall : Forall short (Split output newline)).
  { apply Forall_forall. intros piece Hin.
    destruct (In_linesOf _ _ Hin) as [->|Hl]; [reflexivity | now apply H]. }
  pose proof (Split_not_nil output newline) as Hne.
  rewrite scanFrom_short.
  - apply (emitLine_currentLine (Split output newline)).
  - destruct (Split output newline) as [|p ps]; [congruence|].
    inversion Hall; subst. simpl. assumption.
  - destruct (Split output newline) as [|p ps]; [congruence|].
    inversion Hall; subst. assumption.
Qed.

Lemma parseLine_descriptorOf (tracks : list TrackInfo) (text : string) :
  parseLine tracks text = tracks +++ descriptorOf text.
Proof.
  unfold parseLine, descriptorOf, append, withTitle.
  destruct (Split text "|") as [|f0 [|f1 [|f2 [|f3 rest]]]]; simpl;
    try (now rewrite app_nil_r); reflexivity.
Qed.

Lemma fold_parseLine (lines : list string) (tracks : list TrackInfo) :
  fold_left parseLine lines tracks = tracks +++ flat_map descriptorOf lines.
Proof.
  revert tracks; induction lines as [|l ls IH]; intros tracks; simpl.
  - now rewrite app_nil_r.
  - rewrite IH, parseLine_descriptorOf. now rewrite <- app_assoc.
Qed.

Lemma length_descriptors (lines : list string) :
  length (flat_map descriptorOf lines) = length (filter wellFormed lines).
Proof.
  induction lines as [|l ls IH]; simpl; [reflexivity|].
  rewrite length_app, IH. unfold descriptorOf, wellFormed.
  destruct (Split l "|") as [|f0 [|f1 [|f2 rest]]]; reflexivity.
Qed.

End Catalog.

(** C2, as the code has it.  For every ffprobe output whose lines are
    shorter than 65536 bytes (what the line scanner can hold), the catalog
    has, in the order of the output, exactly one descriptor for every line
    of at least three "|"-separated fields: fields 0, 1, 2 are the index,
    the layout and the language, field 3 is the title when there is one and
    the title is empty otherwise.  Lines of fewer than three fields are
    dropped, so K lines of at least three fields give K descriptors. *)
Theorem parseTracks_one_descriptor_per_line (output : string) :
  (forall line, In line (rawLines output) ->
     (N.of_nat (String.length line) < GoBufio.MaxScanTokenSize)%N) ->
  parseTracks output = flat_map descriptorOf (textLines output) /\
  length (parseTracks output) = length (filter wellFormed (textLines output)).
Proof.
  intros H. unfold parseTracks.
  rewrite (ScanLines_short output H), fold_parseLine. cbn [app].
  split; [reflexivity | apply length_descriptors].
Qed.

Lemma parseTracks_one_descriptor_per_line_witness :
  parseTracks (combinedOutput Sim.twoTracks) =
  [mkTrackInfo "1" "5.1" "eng" "Surround"; mkTrackInfo "2" "7.1" "jpn" ""] /\
  length (parseTracks (combinedOutput Sim.twoTracks)) = 2.
Proof.
  assert (H : forall line, In line (rawLines (combinedOutput Sim.twoTracks)) ->
                (N.of_nat (String.length line) < GoBufio.MaxScanTokenSize)%N).
  { intros line [<-|[<-|[]]]; reflexivity. }
  destruct (parseTracks_one_descriptor_per_line _ H) as [E L].
  split; [exact E | exact L].
Defined.

(** C2, as the specification has it, fails on an output with a line of 65536
    bytes or more: the scanner stops there for good and the loop ends.  The
    output below has two lines of at least three fields and the catalog is
    empty. *)
Lemma parseTracks_long_line_counterexample :
  length (filter wellFormed (textLines longTitleOutput)) = 2 /\
  parseTracks longTitleOutput = [].
Proof. split; vm_compute; reflexivity. Qed.

(** ** Traces *)

Section Traces.

Lemma removals_app (a b : list Event) :
  removals (a +++ b) = removals a +++ removals b.
Proof.
  induction a as [|e a IH]; simpl; [reflexivity|].
  destruct e; simpl; now rewrite IH.
Qed.

Lemma commands_app (a b : list Event) :
  commands (a +++ b) = commands a +++ commands b.
Proof.
  induction a as [|e a IH]; simpl; [reflexivity|].
  destruct e; simpl; now rewrite IH.
Qed.

Lemma printed_app (a b : list Event) :
  printed (a +++ b) = printed a +++ printed b.
Proof.
  induction a as [|e a IH]; simpl; [reflexivity|].
  destruct e; simpl; now rewrite IH.
Qed.

End Traces.

(** Running the definitions of the state-passing operations. *)
Ltac run :=
  unfold bind, ret, Stat, Exec, Remove, Printf, Println, emit, wg_Done,
    wg_Add, wg_New, forwardStderr, append; cbn [fst snd os trace wg].

(** ** processTrack *)

Section Worker.

Variable sys : System.
Variable inputFile : string.
Variable track : TrackInfo.

Lemma processTrack_existing (w : World sys) :
  os_Stat sys (processTrack_enhancedFile inputFile track) (os w) = StatOk ->
  processTrack sys inputFile track w =
  (tt, {| os := os w;
          trace := trace w +++
                   [EvPrint ("Enhanced track " ++ Index track
                               ++ " already exists, skipping processing"
                               ++ nl)];
          wg := (wg w - 1)%Z |}).
Proof.
  intros H. unfold processTrack. run. rewrite H.
  reflexivity.
Qed.

Lemma traces_of_prints (texts : list string) :
  commands (map EvPrint texts) = [] /\
  removals (map EvPrint texts) = [] /\
  printed (map EvPrint texts) = texts.
Proof.
  induction texts as [|t texts (C & R & P)]; cbn; [tauto|].
  now rewrite P.
Qed.

Lemma processTrack_missing (w : World sys) (r : ExecResult) (o : OS sys) :
  os_Stat sys (processTrack_enhancedFile inputFile track) (os w) <> StatOk ->
  os_Exec sys "ffmpeg" (processTrack_args inputFile track) (os w) = (r, o) ->
  processTrack sys inputFile track w =
  (tt, {| os := o;
          trace := trace w
                     +++ transcodeEvents inputFile track (status r)
                           (stderrRead sys o r);
          wg := (wg w - 1)%Z |}).
Proof.
  intros Hst Hex. unfold processTrack, transcodeEvents, stderrRead.
  run.
  destruct (os_Stat sys (processTrack_enhancedFile inputFile track) (os w));
    [congruence| |];
    rewrite Hex; destruct (status r); run;
    rewrite <- ?app_assoc; reflexivity.
Qed.

Lemma transcodeEvents_projections (st : ExecStatus) (read : string) :
  commands (transcodeEvents inputFile track st read)
  = [transcodeCommand inputFile track] /\
  removals (transcodeEvents inputFile track st read) = [].
Proof.
  destruct (traces_of_prints (forwardedLines read)) as (C & R & _).
  unfold transcodeEvents, transcodeCommand. destruct st; cbn;
    rewrite ?commands_app, ?removals_app, ?C, ?R; split; reflexivity.
Qed.

(** Whatever happens, the worker comes to its end: it has called Done once,
    deleted nothing, and left its mark in the trace. *)
Lemma processTrack_runs (w : World sys) :
  exists events,
    trace (snd (processTrack sys inputFile track w)) = trace w +++ events /\
    removals events = [] /\
    workerRan inputFile track events /\
    wg (snd (processTrack sys inputFile track w)) = (wg w - 1)%Z.
Proof.
  destruct (os_Stat sys (processTrack_enhancedFile inputFile track) (os w))
    eqn:Hst.
  - rewrite processTrack_existing by assumption.
    eexists; repeat split; [left; now left].
  - destruct (os_Exec sys "ffmpeg" (processTrack_args inputFile track) (os w))
      as [r o] eqn:Hex.
    rewrite (processTrack_missing w r o) by congruence.
    eexists; repeat split.
    + apply transcodeEvents_projections.
    + right; now left.
  - destruct (os_Exec sys "ffmpeg" (processTrack_args inputFile track) (os w))
      as [r o] eqn:Hex.
    rewrite (processTrack_missing w r o) by congruence.
    eexists; repeat split.
    + apply transcodeEvents_projections.
    + right; now left.
Qed.

End Worker.

(** C4.  The worker is idempotent.  When the side-car path of the track
    exists as the worker runs, the worker calls no command, leaves the
    system as it is and only reports that the track is skipped; it fails in
    no way.  So when the side-car exists after a first run of the worker, a
    second run for the same track calls ffmpeg no second time. *)
Theorem processTrack_idempotent (sys : System) (inputFile : string)
  (track : TrackInfo) (w : World sys) :
  (os_Stat sys (processTrack_enhancedFile inputFile track) (os w) = StatOk ->
   let w' := snd (processTrack sys inputFile track w) in
   os w' = os w /\
   commands (trace w') = commands (trace w) /\
   trace w' =
   trace w +++
   [EvPrint ("Enhanced track " ++ Index track
               ++ " already exists, skipping processing" ++ nl)]) /\
  (let w1 := snd (processTrack sys inputFile track w) in
   os_Stat sys (processTrack_enhancedFile inputFile track) (os w1) = StatOk ->
   let w2 := snd (processTrack sys inputFile track w1) in
   os w2 = os w1 /\
   commands (trace w2) = commands (trace w1) /\
   printed (trace w2) =
   printed (trace w1) +++
   ["Enhanced track " ++ Index track
      ++ " already exists, skipping processing" ++ nl]).
Proof.
  split.
  - intros H. rewrite processTrack_existing by assumption. cbn.
    repeat split. rewrite commands_app. cbn. now rewrite app_nil_r.
  - intros w1 H. subst w1. rewrite (processTrack_existing _ _ _ _ H). cbn.
    repeat split.
    + rewrite commands_app. cbn. now rewrite app_nil_r.
    + now rewrite printed_app.
Qed.

Lemma processTrack_idempotent_witness :
  let track := mkTrackInfo "1" "5.1" "eng" "Surround" in
  let present :=
    Sim.world ["film.mkv"; "film_track1_enhanced.opus"] [] Sim.twoTracks in
  let absent := Sim.world ["film.mkv"] [] Sim.twoTracks in
  let once := snd (processTrack Sim.system "film.mkv" track absent) in
  commands (trace (snd (processTrack Sim.system "film.mkv" track present)))
  = [] /\
  commands (trace (snd (processTrack Sim.system "film.mkv" track once)))
  = [("ffmpeg", processTrack_args "film.mkv" track)].
Proof.
  intros track present absent once. split.
  - destruct (proj1 (processTrack_idempotent Sim.system "film.mkv" track
                       present) eq_refl) as [_ [H _]].
    exact H.
  - destruct (proj2 (processTrack_idempotent Sim.system "film.mkv" track
                       absent) eq_refl) as [_ [H _]].
    exact H.
Defined.

(** ** removeTemporaryFiles *)

Section Cleanup.

Variable sys : System.
Variable inputFile : string.

Lemma removeTemporaryFiles_failure (track : TrackInfo)
  (tracks : list TrackInfo) (w : World sys) (e : string) (o : OS sys) :
  os_Remove sys (removeTemporaryFiles_enhancedFile inputFile track) (os w)
  = (Some e, o) ->
  removeTemporaryFiles sys inputFile (track :: tracks) w =
  (Some e,
   {| os := o;
      trace := trace w +++
               [EvRemove (removeTemporaryFiles_enhancedFile inputFile track);
                EvPrint ("Failed to delete temporary file "
                           ++ removeTemporaryFiles_enhancedFile inputFile track
                           ++ ": " ++ e ++ nl)];
      wg := wg w |}).
Proof.
  intros H. cbn [removeTemporaryFiles]. run. rewrite H. run.
  now rewrite <- app_assoc.
Qed.

Lemma removeTemporaryFiles_success (track : TrackInfo)
  (tracks : list TrackInfo) (w : World sys) (o : OS sys) :
  os_Remove sys (removeTemporaryFiles_enhancedFile inputFile track) (os w)
  = (None, o) ->
  removeTemporaryFiles sys inputFile (track :: tracks) w =
  removeTemporaryFiles sys inputFile tracks
    {| os := o;
       trace := trace w +++
                [EvRemove (removeTemporaryFiles_enhancedFile inputFile track);
                 EvPrint ("Temporary file "
                            ++ removeTemporaryFiles_enhancedFile inputFile track
                            ++ " removed successfully." ++ nl)];
       wg := wg w |}.
Proof.
  intros H. cbn [removeTemporaryFiles]. run. rewrite H. run.
  now rewrite <- app_assoc.
Qed.

(** Cleanup deletes a prefix of the side-cars of the catalog, in catalog
    order, and nothing else. *)
Lemma removeTemporaryFiles_removals (tracks : list TrackInfo) (w : World sys) :
  exists k,
    removals (trace (snd (removeTemporaryFiles sys inputFile tracks w))) =
    removals (trace w)
      +++ firstn k (map (removeTemporaryFiles_enhancedFile inputFile) tracks).
Proof.
  revert w; induction tracks as [|track tracks IH]; intros w.
  - exists 0. cbn. now rewrite app_nil_r.
  - destruct (os_Remove sys (removeTemporaryFiles_enhancedFile inputFile track)
                (os w)) as [[e|] o] eqn:H.
    + exists 1. rewrite (removeTemporaryFiles_failure _ _ _ _ _ H).
      cbn [snd trace]. rewrite removals_app. reflexivity.
    + rewrite (removeTemporaryFiles_success _ _ _ _ H).
      destruct (IH {| os := o;
                      trace := trace w +++
                        [EvRemove
                           (removeTemporaryFiles_enhancedFile inputFile track);
                         EvPrint
                           ("Temporary file "
                              ++ removeTemporaryFiles_enhancedFile inputFile
                                   track
                              ++ " removed successfully." ++ nl)];
                      wg := wg w |}) as [k Hk].
      exists (S k). rewrite Hk. cbn [trace]. rewrite removals_app.
      cbn. now rewrite <- app_assoc.
Qed.

(** Cleanup only adds to the trace and leaves the WaitGroup alone. *)
Lemma removeTemporaryFiles_trace (tracks : list TrackInfo) (w : World sys) :
  exists events,
    trace (snd (removeTemporaryFiles sys inputFile tracks w))
    = trace w +++ events /\
    wg (snd (removeTemporaryFiles sys inputFile tracks w)) = wg w.
Proof.
  revert w; induction tracks as [|track tracks IH]; intros w.
  - exists []. cbn. now rewrite app_nil_r.
  - destruct (os_Remove sys (removeTemporaryFiles_enhancedFile inputFile track)
                (os w)) as [[e|] o] eqn:H.
    + rewrite (removeTemporaryFiles_failure _ _ _ _ _ H).
      eexists. cbn [snd trace wg]. split; reflexivity.
    + rewrite (removeTemporaryFiles_success _ _ _ _ H).
      match goal with
      | |- context [removeTemporaryFiles sys inputFile tracks ?w1] =>
          destruct (IH w1) as (events & T & C)
      end.
      eexists. rewrite T, C. cbn [trace wg]. rewrite <- app_assoc.
      split; reflexivity.
Qed.

End Cleanup.

(** C7.  Cleanup deletes the side-cars in catalog order and stops at the
    first deletion that fails: when the deletions for the tracks [done]
    succeed one after the other and the deletion for the next track fails
    with [e], cleanup returns [e]; it has asked for the deletion of the
    side-cars of [done] and of the failing track, in this order, and for no
    deletion for the tracks after it, and it leaves the system as the failed
    deletion left it. *)
Theorem removeTemporaryFiles_stops_at_first_failure (sys : System)
  (inputFile : string) (done : list TrackInfo) (failing : TrackInfo)
  (remaining : list TrackInfo) (w : World sys) (o1 o2 : OS sys) (e : string) :
  removedAll sys (map (removeTemporaryFiles_enhancedFile inputFile) done)
    (os w) o1 ->
  os_Remove sys (removeTemporaryFiles_enhancedFile inputFile failing) o1
  = (Some e, o2) ->
  let result :=
    removeTemporaryFiles sys inputFile (done +++ failing :: remaining) w in
  fst result = Some e /\
  os (snd result) = o2 /\
  removals (trace (snd result)) =
  removals (trace w)
    +++ map (removeTemporaryFiles_enhancedFile inputFile) done
    +++ [removeTemporaryFiles_enhancedFile inputFile failing].
Proof.
  revert w. induction done as [|track done IH]; intros w Hdone Hfail result.
  - inversion Hdone; subst. subst result. cbn [app map].
    rewrite (removeTemporaryFiles_failure _ _ _ _ _ _ _ Hfail).
    cbn [fst snd os trace]. rewrite removals_app. repeat split.
  - inversion Hdone as [|p ps oa ob oc Hrm Hrest]; subst.
    subst result. cbn [app map].
    rewrite (removeTemporaryFiles_success _ _ _ _ _ _ Hrm).
    match goal with
    | |- context [removeTemporaryFiles sys inputFile _ ?w1] =>
        destruct (IH w1 Hrest Hfail) as [R [O T]]
    end.
    repeat split; [exact R | exact O |].
    rewrite T. cbn [trace]. rewrite removals_app. cbn.
    now rewrite <- app_assoc.
Qed.

Lemma removeTemporaryFiles_stops_at_first_failure_witness :
  let tracks :=
    [mkTrackInfo "1" "5.1" "eng" ""; mkTrackInfo "2" "7.1" "jpn" "";
     mkTrackInfo "3" "5.1" "fra" ""] in
  let w :=
    Sim.world ["film_track1_enhanced.opus"; "film_track3_enhanced.opus"] []
      Sim.twoTracks in
  let result := removeTemporaryFiles Sim.system "film.mkv" tracks w in
  fst result
  = Some "remove film_track2_enhanced.opus: no such file or directory" /\
  Sim.files (os (snd result)) = ["film_track3_enhanced.opus"] /\
  removals (trace (snd result))
  = ["film_track1_enhanced.opus"; "film_track2_enhanced.opus"].
Proof.
  intros tracks w result.
  pose (left := Sim.mkState ["film_track3_enhanced.opus"] [] Sim.twoTracks).
  assert (Hdone : removedAll Sim.system
                    (map (removeTemporaryFiles_enhancedFile "film.mkv")
                       [mkTrackInfo "1" "5.1" "eng" ""]) (os w) left).
  { eapply removedAll_cons; [reflexivity | apply removedAll_nil]. }
  destruct (removeTemporaryFiles_stops_at_first_failure Sim.system "film.mkv"
              [mkTrackInfo "1" "5.1" "eng" ""] (mkTrackInfo "2" "7.1" "jpn" "")
              [mkTrackInfo "3" "5.1" "fra" ""] w left left
              "remove film_track2_enhanced.opus: no such file or directory"
              Hdone eq_refl) as [R [O T]].
  split; [exact R | split; [|exact T]].
  change (Sim.files
            (os (snd (removeTemporaryFiles Sim.system "film.mkv"
                        ([mkTrackInfo "1" "5.1" "eng" ""]
                           +++ mkTrackInfo "2" "7.1" "jpn" ""
                           :: [mkTrackInfo "3" "5.1" "fra" ""]) w)))
          = ["film_track3_enhanced.opus"]).
  rewrite O. reflexivity.
Defined.

(** ** extractTrackInfo and the failures that end the run at once *)

Section Extract.

Variable sys : System.

Lemma extractTrackInfo_not_found (file : string) (w : World sys) :
  os_Stat sys file (os w) = StatNotExist ->
  extractTrackInfo sys file w
  = (([], Some ("file does not exist: " ++ file)), w).
Proof. intros H. unfold extractTrackInfo. run. now rewrite H. Qed.

Lemma extractTrackInfo_probe (file : string) (w : World sys)
  (r : ExecResult) (o : OS sys) :
  os_Stat sys file (os w) <> StatNotExist ->
  os_Exec sys "ffprobe" (extractTrackInfo_args file) (os w) = (r, o) ->
  extractTrackInfo sys file w =
  (match runError r with
   | Some err =>
       ([], Some ("ffprobe failed with error: " ++ err ++ nl ++ "Output: "
                    ++ combinedOutput r))
   | None => (parseTracks (combinedOutput r), None)
   end,
   {| os := o;
      trace := trace w +++ [EvExec "ffprobe" (extractTrackInfo_args file)];
      wg := wg w |}).
Proof.
  intros Hst Hex. unfold extractTrackInfo. run.
  destruct (os_Stat sys file (os w)); [|congruence|];
    rewrite Hex; destruct (runError r); reflexivity.
Qed.

(** extractTrackInfo deletes nothing and leaves the WaitGroup alone. *)
Lemma extractTrackInfo_removals (file : string) (w : World sys) :
  removals (trace (snd (extractTrackInfo sys file w))) = removals (trace w).
Proof.
  destruct (os_Stat sys file (os w)) eqn:Hst;
    try (rewrite extractTrackInfo_not_found by assumption; reflexivity);
    destruct (os_Exec sys "ffprobe" (extractTrackInfo_args file) (os w))
      as [r o] eqn:Hex;
    rewrite (extractTrackInfo_probe file w r o) by congruence;
    cbn [snd trace]; rewrite removals_app; cbn; apply app_nil_r.
Qed.

Lemma main_extract_error (prog inputFile : string) (rest : list string)
  (w w1 : World sys) (tracks : list TrackInfo) (e : string) :
  extractTrackInfo sys inputFile w = ((tracks, Some e), w1) ->
  main sys (prog :: inputFile :: rest) w =
  (Exited 1,
   {| os := os w1;
      trace := trace w1 +++ [EvPrint ("Error extracting track info: " ++ e
                                        ++ nl)];
      wg := wg w1 |}).
Proof.
  intros H. unfold main. cbn [length Nat.ltb Nat.leb nth]. run.
  rewrite H. reflexivity.
Qed.

End Extract.

(** C9.  When the input path does not exist, extractTrackInfo returns the
    error "file does not exist: <path>" and runs no command.  When ffprobe
    cannot be started or exits with a failure, extractTrackInfo returns an
    error that carries the error of the command and its combined standard
    and error output, after that single call of ffprobe.  In both cases
    main prints the error and exits with status 1, and nothing else has
    happened: no track is processed, nothing is merged or deleted. *)
Theorem extractTrackInfo_failures_abort (sys : System) (prog inputFile : string)
  (rest : list string) (w : World sys) :
  (os_Stat sys inputFile (os w) = StatNotExist ->
   extractTrackInfo sys inputFile w
   = (([], Some ("file does not exist: " ++ inputFile)), w) /\
   main sys (prog :: inputFile :: rest) w
   = (Exited 1,
      {| os := os w;
         trace := trace w +++
                  [EvPrint ("Error extracting track info: file does not exist: "
                              ++ inputFile ++ nl)];
         wg := wg w |})) /\
  (forall (r : ExecResult) (o : OS sys) (err : string),
     os_Stat sys inputFile (os w) <> StatNotExist ->
     os_Exec sys "ffprobe" (extractTrackInfo_args inputFile) (os w) = (r, o) ->
     runError r = Some err ->
     extractTrackInfo sys inputFile w
     = (([], Some ("ffprobe failed with error: " ++ err ++ nl ++ "Output: "
                     ++ combinedOutput r)),
        {| os := o;
           trace := trace w
                      +++ [EvExec "ffprobe" (extractTrackInfo_args inputFile)];
           wg := wg w |}) /\
     main sys (prog :: inputFile :: rest) w
     = (Exited 1,
        {| os := o;
           trace := trace w +++
                    [EvExec "ffprobe" (extractTrackInfo_args inputFile);
                     EvPrint ("Error extracting track info: "
                                ++ "ffprobe failed with error: " ++ err ++ nl
                                ++ "Output: " ++ combinedOutput r ++ nl)];
           wg := wg w |})).
Proof.
  split.
  - intros H. pose proof (extractTrackInfo_not_found sys inputFile w H) as E.
    split; [exact E|].
    rewrite (main_extract_error sys prog inputFile rest w w [] _ E).
    reflexivity.
  - intros r o err Hst Hex Herr.
    pose proof (extractTrackInfo_probe sys inputFile w r o Hst Hex) as E.
    rewrite Herr in E. split; [exact E|].
    rewrite (main_extract_error sys prog inputFile rest w _ [] _ E).
    cbn [os trace wg]. rewrite <- app_assoc. cbn [app].
    unfold Join. cbn [String.concat]. rewrite !append_assoc. reflexivity.
Qed.

(** ** The goroutines and the join *)

Section FanOut.

Variable sys : System.
Variable inputFile : string.

Lemma workerRan_app_l (track : TrackInfo) (a b : list Event) :
  workerRan inputFile track a -> workerRan inputFile track (a +++ b).
Proof. intros [H|H]; [left | right]; apply in_or_app; now left. Qed.

Lemma workerRan_app_r (track : TrackInfo) (a b : list Event) :
  workerRan inputFile track b -> workerRan inputFile track (a +++ b).
Proof. intros [H|H]; [left | right]; apply in_or_app; now right. Qed.

Lemma without_nth {A : Type} (l : list A) (k : nat) (a : A) :
  nth_error l k = Some a ->
  exists l1 l2,
    l = l1 +++ a :: l2 /\ firstn k l +++ skipn (S k) l = l1 +++ l2.
Proof.
  revert k; induction l as [|x l IH]; intros [|k] H; try discriminate.
  - injection H as ->. exists [], l. split; reflexivity.
  - destruct (IH k H) as (l1 & l2 & E1 & E2).
    exists (x :: l1), l2. split.
    + cbn. now rewrite <- E1.
    + cbn [firstn skipn app] in *. now rewrite E2.
Qed.

Lemma wg_Add_all (tracks : list TrackInfo) (w : World sys) :
  fold_right (fun (_ : TrackInfo) (rest : M sys unit) =>
                bind (wg_Add 1) (fun _ => rest))
    (ret tt) tracks w
  = (tt, {| os := os w; trace := trace w;
            wg := (wg w + Z.of_nat (length tracks))%Z |}).
Proof.
  revert w; induction tracks as [|t l IH]; intros w.
  - destruct w as [o tr c]. cbn. unfold ret. do 2 f_equal. lia.
  - cbn [fold_right length]. unfold bind at 1. cbn [wg_Add].
    rewrite IH. cbn [os trace wg]. do 2 f_equal. lia.
Qed.

(** Every goroutine started runs to its end, whatever the scheduler picks
    and whatever happens to the others. *)
Lemma runGoroutines_runs (n : nat) :
  forall (runnable : list TrackInfo) (w : World sys),
    length runnable = n ->
    exists events,
      trace (snd (runGoroutines sys inputFile n runnable w))
      = trace w +++ events /\
      removals events = [] /\
      (forall track, In track runnable -> workerRan inputFile track events) /\
      wg (snd (runGoroutines sys inputFile n runnable w))
      = (wg w - Z.of_nat n)%Z.
Proof.
  induction n as [|n IH]; intros runnable w Hlen.
  - exists []. cbn. rewrite app_nil_r. repeat split; [|lia].
    destruct runnable; [contradiction | discriminate].
  - cbn [runGoroutines].
    set (k := (os_Next sys (os w) (length runnable) mod length runnable)%nat).
    assert (Hk : k < length runnable)
      by (apply Nat.mod_upper_bound; lia).
    destruct (nth_error runnable k) as [track|] eqn:Hnth;
      [|apply nth_error_None in Hnth; lia].
    destruct (without_nth _ _ _ Hnth) as (l1 & l2 & El & Er).
    rewrite Er. unfold bind.
    destruct (processTrack_runs sys inputFile track w)
      as (ev1 & T1 & R1 & W1 & C1).
    destruct (processTrack sys inputFile track w) as [[] w1].
    cbn [snd] in *.
    assert (Hlen' : length (l1 +++ l2) = n).
    { rewrite El in Hlen. rewrite length_app in *. cbn in Hlen. lia. }
    destruct (IH (l1 +++ l2) w1 Hlen') as (ev2 & T2 & R2 & W2 & C2).
    exists (ev1 +++ ev2). repeat split.
    + now rewrite T2, T1, <- app_assoc.
    + now rewrite removals_app, R1, R2.
    + intros t Ht. rewrite El in Ht.
      apply in_app_or in Ht as [Ht|[<-|Ht]].
      * apply workerRan_app_r, W2, in_or_app. now left.
      * now apply workerRan_app_l.
      * apply workerRan_app_r, W2, in_or_app. now right.
    + rewrite C2, C1. lia.
Qed.

(** The join completes: main gets past [wg.Wait()], every worker having
    run. *)
Lemma fanOut_joins (tracks : list TrackInfo) (w : World sys) :
  exists (events : list Event) (w2 : World sys),
    fanOut sys inputFile tracks w = (true, w2) /\
    trace w2 = trace w +++ events /\
    removals events = [] /\
    (forall track, In track tracks -> workerRan inputFile track events) /\
    wg w2 = 0%Z.
Proof.
  unfold fanOut, bind. cbn [wg_New].
  rewrite wg_Add_all. cbn [os trace wg].
  destruct (runGoroutines_runs (length tracks) tracks
              {| os := os w; trace := trace w;
                 wg := (0 + Z.of_nat (length tracks))%Z |} eq_refl)
    as (events & T & R & W & C).
  destruct (runGoroutines sys inputFile (length tracks) tracks _)
    as [[] w2].
  cbn [snd os trace wg] in *.
  exists events, w2. repeat split; try assumption.
  - replace (wg w2) with 0%Z by lia. reflexivity.
  - lia.
Qed.

End FanOut.

(** ** mergeTracks and the end of main *)

Section Merge.

Variable sys : System.

Lemma mergeTracks_run (inputFile outputFile : string)
  (tracks : list TrackInfo) (w : World sys) (r : ExecResult) (o : OS sys) :
  os_Exec sys "ffmpeg" (mergeTracks_args inputFile outputFile tracks) (os w)
  = (r, o) ->
  mergeTracks sys inputFile outputFile tracks w =
  (match runError r with
   | Some err =>
       Some ("ffmpeg command failed: " ++ err ++ nl ++ "stderr:" ++ nl
               ++ stderrOutput r)
   | None => None
   end,
   {| os := o;
      trace := trace w +++
               [EvPrint ("ffmpeg "
                           ++ Join (mergeTracks_args inputFile outputFile
                                      tracks) " " ++ nl);
                EvExec "ffmpeg"
                  (mergeTracks_args inputFile outputFile tracks)];
      wg := wg w |}).
Proof.
  intros H. unfold mergeTracks. run. rewrite H.
  rewrite <- app_assoc.
  destruct (runError r); reflexivity.
Qed.

(** main once the catalog is there and the workers are joined. *)
Lemma main_after_join (prog inputFile : string) (rest : list string)
  (w w1 w2 : World sys) (tracks : list TrackInfo) :
  extractTrackInfo sys inputFile w = ((tracks, None), w1) ->
  fanOut sys inputFile tracks w1 = (true, w2) ->
  main sys (prog :: inputFile :: rest) w =
  let outputFile := TrimSuffix inputFile ".mkv" ++ "_enhanced.mkv" in
  let '(err, w3) := mergeTracks sys inputFile outputFile tracks w2 in
  match err with
  | Some e =>
      (Exited 1,
       {| os := os w3;
          trace := trace w3 +++ [EvPrint ("Error merging tracks: " ++ e ++ nl)];
          wg := wg w3 |})
  | None =>
      let '(_, w4) := removeTemporaryFiles sys inputFile tracks w3 in
      (Exited 0,
       {| os := os w4;
          trace := trace w4 +++
                   [EvPrint ("Enhanced MKV generated: " ++ outputFile ++ nl)];
          wg := wg w4 |})
  end.
Proof.
  intros Hex Hfan. unfold main. cbn [length Nat.ltb Nat.leb nth].
  unfold bind at 1. rewrite Hex. unfold bind at 1. rewrite Hfan.
  unfold bind at 1.
  destruct (mergeTracks sys inputFile _ tracks w2) as [[e|] w3].
  - reflexivity.
  - unfold bind at 1.
    destruct (removeTemporaryFiles sys inputFile tracks w3) as [res w4].
    run. unfold Join. cbn [String.concat].
    rewrite append_assoc. reflexivity.
Qed.

End Merge.


(** C6.  When the ffmpeg call of mergeTracks fails (it cannot be started or
    exits with a failure), mergeTracks returns an error that carries the
    error of the command and what it wrote to its error output; main prints
    it and exits with status 1.  removeTemporaryFiles is not called: the
    whole run has deleted nothing, and the system is left as the failed
    ffmpeg call left it, side-cars included. *)
Theorem merge_failure_keeps_sidecars (sys : System) (prog inputFile : string)
  (rest : list string) (w w1 w2 : World sys) (tracks : list TrackInfo)
  (released : bool) (r : ExecResult) (o : OS sys) (err : string) :
  let outputFile := TrimSuffix inputFile ".mkv" ++ "_enhanced.mkv" in
  extractTrackInfo sys inputFile w = ((tracks, None), w1) ->
  fanOut sys inputFile tracks w1 = (released, w2) ->
  os_Exec sys "ffmpeg" (mergeTracks_args inputFile outputFile tracks) (os w2)
  = (r, o) ->
  runError r = Some err ->
  fst (mergeTracks sys inputFile outputFile tracks w2)
  = Some ("ffmpeg command failed: " ++ err ++ nl ++ "stderr:" ++ nl
            ++ stderrOutput r) /\
  main sys (prog :: inputFile :: rest) w =
  (Exited 1,
   {| os := o;
      trace := trace w2 +++
               [EvPrint ("ffmpeg "
                           ++ Join (mergeTracks_args inputFile outputFile
                                      tracks) " " ++ nl);
                EvExec "ffmpeg"
                  (mergeTracks_args inputFile outputFile tracks);
                EvPrint ("Error merging tracks: ffmpeg command failed: "
                           ++ err ++ nl ++ "stderr:" ++ nl ++ stderrOutput r
                           ++ nl)];
      wg := wg w2 |}) /\
  removals (trace (snd (main sys (prog :: inputFile :: rest) w)))
  = removals (trace w).
Proof.
  intros outputFile Hex Hfan Hm Herr.
  destruct (fanOut_joins sys inputFile tracks w1)
    as (workers & w2' & Hfan' & T2 & R2 & _ & _).
  rewrite Hfan in Hfan'. injection Hfan' as -> <-.
  pose proof (mergeTracks_run sys inputFile outputFile tracks w2 r o Hm) as E.
  rewrite Herr in E.
  assert (Hmain : main sys (prog :: inputFile :: rest) w =
                  (Exited 1,
                   {| os := o;
                      trace := trace w2 +++
                        [EvPrint ("ffmpeg "
                                    ++ Join (mergeTracks_args inputFile
                                               outputFile tracks) " " ++ nl);
                         EvExec "ffmpeg"
                           (mergeTracks_args inputFile outputFile tracks);
                         EvPrint ("Error merging tracks: ffmpeg command failed: "
                                    ++ err ++ nl ++ "stderr:" ++ nl
                                    ++ stderrOutput r ++ nl)];
                      wg := wg w2 |})).
  { rewrite (main_after_join sys prog inputFile rest w w1 w2 tracks Hex Hfan).
    cbv zeta. fold outputFile. rewrite E. cbn [os trace wg].
    rewrite <- app_assoc. cbn [app]. rewrite !append_assoc. reflexivity. }
  split; [now rewrite E | split; [exact Hmain|]].
  rewrite Hmain. cbn [snd trace]. rewrite removals_app, T2, removals_app, R2.
  pose proof (extractTrackInfo_removals sys inputFile w) as R1.
  rewrite Hex in R1. cbn [snd] in R1. rewrite R1. cbn.
  now rewrite !app_nil_r.
Qed.

(** C8.  When the merge has succeeded and a deletion of cleanup fails, main
    goes on as if nothing had happened: it prints "Enhanced MKV generated:"
    with the output path and returns, so the exit status is 0. *)
Theorem cleanup_failure_is_ignored (sys : System) (prog inputFile : string)
  (rest : list string) (w w1 w2 w3 w4 : World sys) (tracks : list TrackInfo)
  (released : bool) (e : string) :
  let outputFile := TrimSuffix inputFile ".mkv" ++ "_enhanced.mkv" in
  extractTrackInfo sys inputFile w = ((tracks, None), w1) ->
  fanOut sys inputFile tracks w1 = (released, w2) ->
  mergeTracks sys inputFile outputFile tracks w2 = (None, w3) ->
  removeTemporaryFiles sys inputFile tracks w3 = (Some e, w4) ->
  main sys (prog :: inputFile :: rest) w =
  (Exited 0,
   {| os := os w4;
      trace := trace w4 +++
               [EvPrint ("Enhanced MKV generated: " ++ outputFile ++ nl)];
      wg := wg w4 |}).
Proof.
  intros outputFile Hex Hfan Hm Hrm.
  destruct (fanOut_joins sys inputFile tracks w1)
    as (workers & w2' & Hfan' & _).
  rewrite Hfan in Hfan'. injection Hfan' as -> <-.
  rewrite (main_after_join sys prog inputFile rest w w1 w2 tracks Hex Hfan).
  cbv zeta. fold outputFile. rewrite Hm, Hrm. reflexivity.
Qed.

(** C10.  The worker, mergeTracks and cleanup use one and the same side-car
    path for a track: the input path without a trailing ".mkv" (the whole
    input path when it does not end in ".mkv"), then "_track", the index of
    the track as it is, and "_enhanced.opus".  It is the path the worker
    checks and gives ffmpeg as output, the path mergeTracks gives as input
    for the track, and the path cleanup deletes. *)
Theorem sidecar_path_is_shared (sys : System) (inputFile outputFile : string)
  (tracks : list TrackInfo) (w : World sys) :
  let paths := map (processTrack_enhancedFile inputFile) tracks in
  Forall2 (namedSideCar inputFile) tracks paths /\
  map (fun track => last (processTrack_args inputFile track) "") tracks
  = paths /\
  map (mergeTracks_enhancedFile inputFile) tracks = paths /\
  optionValues "-i" (mergeTracks_args inputFile outputFile tracks)
  = inputFile :: paths /\
  map (removeTemporaryFiles_enhancedFile inputFile) tracks = paths /\
  exists k,
    removals (trace (snd (removeTemporaryFiles sys inputFile tracks w)))
    = removals (trace w) +++ firstn k paths.
Proof.
  intros paths; subst paths. repeat split.
  - induction tracks as [|t l IH]; constructor; [|exact IH].
    apply namedSideCar_intro.
  - apply mergeTracks_inputs.
  - apply (removeTemporaryFiles_removals sys inputFile tracks w).
Qed.

(** ** Runs of the small concrete system *)

Lemma extractTrackInfo_failures_abort_witness :
  let missing := Sim.world [] [] Sim.twoTracks in
  let broken :=
    Sim.world ["film.mkv"] []
      {| status := WaitFailed "exit status 1";
         combinedOutput := "film.mkv: Invalid data found";
         stderrOutput := "film.mkv: Invalid data found" |} in
  main Sim.system ["enhance"; "film.mkv"] missing
  = (Exited 1,
     mkWorld (os missing)
       [EvPrint ("Error extracting track info: file does not exist: film.mkv"
                   ++ nl)] 0) /\
  main Sim.system ["enhance"; "film.mkv"] broken
  = (Exited 1,
     mkWorld (os broken)
       [EvExec "ffprobe" (extractTrackInfo_args "film.mkv");
        EvPrint ("Error extracting track info: ffprobe failed with error: "
                   ++ "exit status 1" ++ nl
                   ++ "Output: film.mkv: Invalid data found" ++ nl)] 0).
Proof.
  intros missing broken. split.
  - exact (proj2 (proj1 (extractTrackInfo_failures_abort Sim.system "enhance"
                           "film.mkv" [] missing) eq_refl)).
  - refine (proj2 (proj2 (extractTrackInfo_failures_abort Sim.system "enhance"
                            "film.mkv" [] broken)
                     (Sim.probe (os broken)) (os broken) "exit status 1"
                     _ eq_refl eq_refl)).
    discriminate.
Defined.


Lemma merge_failure_keeps_sidecars_witness :
  let w := Sim.world ["film.mkv"] ["film_track2_enhanced.opus"] Sim.twoTracks in
  let final := main Sim.system ["enhance"; "film.mkv"] w in
  fst final = Exited 1 /\
  removals (trace (snd final)) = [] /\
  Sim.files (os (snd final)) = ["film_track1_enhanced.opus"; "film.mkv"].
Proof.
  intros w final.
  pose (tracks := parseTracks (combinedOutput Sim.twoTracks)).
  pose (w1 := snd (extractTrackInfo Sim.system "film.mkv" w)).
  pose (w2 := snd (fanOut Sim.system "film.mkv" tracks w1)).
  pose (run := Sim.exec "ffmpeg"
                 (mergeTracks_args "film.mkv" "film_enhanced.mkv" tracks)
                 (os w2)).
  destruct (merge_failure_keeps_sidecars Sim.system "enhance" "film.mkv" []
              w w1 w2 tracks true (fst run) (snd run) "exit status 1"
              eq_refl eq_refl eq_refl eq_refl) as [_ [Hmain Hrm]].
  subst final. split; [|split].
  - now rewrite Hmain.
  - exact Hrm.
  - rewrite Hmain. reflexivity.
Defined.

Lemma cleanup_failure_is_ignored_witness :
  let w :=
    Sim.world ["film.mkv"; "film_track2_enhanced.opus"]
      ["film_track2_enhanced.opus"] Sim.twoTracks in
  let final := main Sim.system ["enhance"; "film.mkv"] w in
  fst final = Exited 0 /\
  last (printed (trace (snd final))) ""
  = "Enhanced MKV generated: film_enhanced.mkv" ++ nl /\
  In ("Failed to delete temporary file film_track2_enhanced.opus: "
        ++ "remove film_track2_enhanced.opus: operation not permitted" ++ nl)
    (printed (trace (snd final))).
Proof.
  intros w final.
  pose (tracks := parseTracks (combinedOutput Sim.twoTracks)).
  pose (w1 := snd (extractTrackInfo Sim.system "film.mkv" w)).
  pose (w2 := snd (fanOut Sim.system "film.mkv" tracks w1)).
  pose (w3 := snd (mergeTracks Sim.system "film.mkv" "film_enhanced.mkv"
                     tracks w2)).
  pose (w4 := snd (removeTemporaryFiles Sim.system "film.mkv" tracks w3)).
  pose proof (cleanup_failure_is_ignored Sim.system "enhance" "film.mkv" []
                w w1 w2 w3 w4 tracks true
                "remove film_track2_enhanced.opus: operation not permitted"
                eq_refl eq_refl eq_refl eq_refl) as Hmain.
  subst final. rewrite Hmain. split; [reflexivity | split; [reflexivity|]].
  cbn. tauto.
Defined.

(** * Further properties of the code *)

(** ** Strings and paths *)

Section MoreStrings.

Lemma append_inj_l (s t u : string) : s ++ t = s ++ u -> t = u.
Proof.
  induction s as [|c s IH]; simpl; intros H; [exact H|].
  injection H as H. now apply IH.
Qed.

Lemma append_inj_r (s : string) :
  forall t u : string, t ++ s = u ++ s -> t = u.
Proof.
  assert (L : forall t u : string,
             String.length t = String.length u -> t ++ s = u ++ s -> t = u).
  { induction t as [|c t IH]; intros [|d u] Hl H; simpl in *;
      try discriminate; [reflexivity|].
    injection H as -> H. f_equal. apply IH; [lia | exact H]. }
  intros t u H. apply L; [|exact H].
  apply (f_equal String.length) in H. rewrite !length_append in H. lia.
Qed.

Lemma append_nil_r (s : string) : s ++ "" = s.
Proof. induction s as [|c s IH]; simpl; [reflexivity | now rewrite IH]. Qed.

Lemma TrimSuffix_cases (s suffix : string) :
  TrimSuffix s suffix = s \/ s = TrimSuffix s suffix ++ suffix.
Proof.
  unfold TrimSuffix. destruct (HasSuffix s suffix) eqn:E.
  - right. now apply HasSuffix_inv.
  - now left.
Qed.

Lemma TrimSuffix_length (s suffix : string) :
  String.length s <= String.length (TrimSuffix s suffix) + String.length suffix.
Proof.
  destruct (TrimSuffix_cases s suffix) as [E|E].
  - rewrite E. lia.
  - rewrite E at 1. rewrite length_append. lia.
Qed.

Lemma substring_0_prefix (s : string) (n : nat) :
  exists rest, s = substring 0 n s ++ rest.
Proof.
  revert n; induction s as [|c s IH]; intros [|n]; cbn.
  - now exists "".
  - now exists "".
  - now exists (String c s).
  - destruct (IH n) as [rest E]. exists rest. now rewrite <- E.
Qed.

Lemma occurs_append (c : ascii) (s t : string) :
  occurs c (s ++ t) <-> occurs c s \/ occurs c t.
Proof.
  unfold occurs. induction s as [|d s IH]; simpl.
  - tauto.
  - rewrite IH. tauto.
Qed.

End MoreStrings.

(** X1.  Two tracks have the same side-car path exactly when they have the
    same index: workers of tracks with different indices never write to the
    same file. *)
Theorem sidecar_path_injective (inputFile : string) (t1 t2 : TrackInfo) :
  processTrack_enhancedFile inputFile t1 = processTrack_enhancedFile inputFile t2
  <-> Index t1 = Index t2.
Proof.
  unfold processTrack_enhancedFile. split.
  - intros H. apply append_inj_l in H. apply append_inj_l in H.
    now apply append_inj_r in H.
  - now intros ->.
Qed.

(** X2.  The output path main derives from the input path (the last
    argument of the merge command, which ffmpeg overwrites) is never the
    input path, and the side-car path of a track is neither the input path
    nor the output path: no ffmpeg call of the program is given the file it
    reads as the file to overwrite. *)
Theorem paths_never_collide (inputFile : string) (tracks : list TrackInfo)
  (track : TrackInfo) :
  let outputFile := TrimSuffix inputFile ".mkv" ++ "_enhanced.mkv" in
  last (mergeTracks_args inputFile outputFile tracks) "" = outputFile /\
  last (processTrack_args inputFile track) ""
  = processTrack_enhancedFile inputFile track /\
  outputFile <> inputFile /\
  processTrack_enhancedFile inputFile track <> inputFile /\
  processTrack_enhancedFile inputFile track <> outputFile.
Proof.
  intros outputFile. pose proof (TrimSuffix_length inputFile ".mkv") as L.
  cbn [String.length] in L.
  repeat split.
  - rewrite mergeTracks_args_eq, !app_assoc.
    match goal with
    | |- last (?l +++ _) _ = _ =>
        change (last (l +++ (["-c:v"; "copy"; "-c:s"; "copy"; "-y"]
                               +++ [outputFile])) "" = outputFile)
    end.
    rewrite app_assoc. apply last_last.
  - intros E. apply (f_equal String.length) in E. subst outputFile.
    rewrite length_append in E. cbn [String.length] in E. lia.
  - intros E. apply (f_equal String.length) in E.
    unfold processTrack_enhancedFile in E.
    rewrite !length_append in E. cbn [String.length] in E. lia.
  - unfold processTrack_enhancedFile. subst outputFile. intros E.
    apply append_inj_l in E. discriminate.
Qed.

(** ** The catalog, exactly *)

Section MoreCatalog.

Import GoBufio.

Lemma takeWhile_all {A : Type} (test : A -> bool) (l : list A) :
  Forall (fun x => test x = true) l -> takeWhile test l = l.
Proof.
  induction 1 as [|x l Hx _ IH]; simpl; [reflexivity|].
  now rewrite Hx, IH.
Qed.

Lemma In_takeWhile {A : Type} (test : A -> bool) (l : list A) (x : A) :
  In x (takeWhile test l) -> In x l.
Proof.
  induction l as [|y l IH]; simpl; [tauto|].
  destruct (test y); simpl; [|tauto]. intros [E|H]; [now left | right; auto].
Qed.

Lemma linesOf_In (pieces : list string) (piece : string) :
  In piece (linesOf pieces) -> In piece pieces.
Proof.
  induction pieces as [|p rest IH]; [tauto|].
  destruct rest as [|q rest].
  - simpl. destruct (p =? ""); simpl; tauto.
  - intros [E|H]; [now left | right; now apply IH].
Qed.

Lemma emitLine_takeWhile (pieces : list string) :
  pieces <> [] ->
  (if shortb (hd "" pieces)
   then emitLine (currentLine 0 pieces)
          (map dropCR (takeWhile shortb (linesOf (tl pieces))))
   else [])
  = map dropCR (takeWhile shortb (linesOf pieces)).
Proof.
  destruct pieces as [|p [|q rest]]; [congruence| |]; intros _.
  - cbn [hd tl linesOf currentLine]. destruct (String.eqb_spec p "") as [->|Hp].
    + reflexivity.
    + cbn. destruct (shortb p); reflexivity.
  - cbn [hd tl currentLine]. change (linesOf (p :: q :: rest))
      with (p :: linesOf (q :: rest)).
    cbn [takeWhile]. destruct (shortb p); reflexivity.
Qed.

(** What the scanner delivers, whatever the input. *)
Lemma scanFrom_exact (data : string) :
  forall held : N,
    (held < MaxScanTokenSize)%N ->
    scanFrom held data =
    if (held + N.of_nat (String.length (hd "" (Split data newline)))
        <? MaxScanTokenSize)%N
    then (currentLine held (Split data newline),
          map dropCR (takeWhile shortb (linesOf (tl (Split data newline)))))
    else (None, []).
Proof.
  induction data as [|c rest IH]; intros held Hheld.
  - cbn. rewrite N.add_0_r.
    replace (held <? MaxScanTokenSize)%N with true
      by (symmetry; now apply N.ltb_lt).
    rewrite andb_true_r. reflexivity.
  - cbn [scanFrom Split].
    pose proof (Split_not_nil rest newline) as Hne.
    destruct (Ascii.eqb c newline).
    + cbn [hd tl String.length]. rewrite N.add_0_r.
      replace (held <? MaxScanTokenSize)%N with true
        by (symmetry; now apply N.ltb_lt).
      rewrite (IH 0%N) by reflexivity. rewrite N.add_0_l.
      pose proof (emitLine_takeWhile (Split rest newline) Hne) as E.
      unfold shortb at 1 in E.
      destruct (N.of_nat (String.length (hd "" (Split rest newline)))
                <? MaxScanTokenSize)%N.
      * unfold emitLine in E. rewrite E.
        destruct (Split rest newline) as [|p ps]; [congruence|]. reflexivity.
      * cbn in E. rewrite <- E.
        destruct (Split rest newline) as [|p ps]; [congruence|]. reflexivity.
    + destruct (Split rest newline) as [|p ps] eqn:Es; [congruence|].
      cbn [hd tl String.length] in *.
      destruct (MaxScanTokenSize <=? held + 1)%N eqn:Emax.
      * apply N.leb_le in Emax.
        replace (held + N.of_nat (S (String.length p)) <? MaxScanTokenSize)%N
          with false by (symmetry; apply N.ltb_ge; lia).
        reflexivity.
      * apply N.leb_gt in Emax. rewrite (IH (held + 1)%N Emax).
        replace (held + 1 + N.of_nat (String.length p))%N
          with (held + N.of_nat (S (String.length p)))%N by lia.
        destruct (held + N.of_nat (S (String.length p)) <? MaxScanTokenSize)%N;
          [|reflexivity].
        destruct ps as [|q qs]; cbn [currentLine option_map]; [|reflexivity].
        replace ((held + 1 =? 0)%N) with false
          by (symmetry; apply N.eqb_neq; lia).
        cbn. now rewrite andb_false_r.
Qed.

Lemma ScanLines_takeWhile (output : string) :
  ScanLines output = map dropCR (takeWhile shortb (rawLines output)).
Proof.
  unfold ScanLines, rawLines.
  rewrite scanFrom_exact by reflexivity. rewrite N.add_0_l.
  pose proof (emitLine_takeWhile (Split output newline)
                (Split_not_nil output newline)) as E.
  unfold shortb at 1 in E.
  destruct (N.of_nat (String.length (hd "" (Split output newline)))
            <? MaxScanTokenSize)%N; exact E.
Qed.

Lemma Split_no_sep (s : string) (sep : ascii) :
  forall field, In field (Split s sep) -> ~ occurs sep field.
Proof.
  unfold occurs. induction s as [|c s IH]; intros field H.
  - destruct H as [<-|[]]. simpl. tauto.
  - cbn [Split] in H. destruct (Ascii.eqb_spec c sep) as [->|Hc].
    + destruct H as [<-|H]; [simpl; tauto | now apply IH].
    + destruct (Split s sep) as [|g gs]; cbn in H.
      * destruct H as [<-|[]]. simpl. intros [E|[]]. congruence.
      * destruct H as [<-|H].
        -- simpl. intros [E|E]; [congruence | apply (IH g); [now left | exact E]].
        -- apply IH. now right.
Qed.

Lemma Split_chars (s : string) (sep c : ascii) :
  forall field, In field (Split s sep) -> occurs c field -> occurs c s.
Proof.
  unfold occurs. induction s as [|d s IH]; intros field H Hc.
  - destruct H as [<-|[]]. exact Hc.
  - cbn [Split] in H. simpl. destruct (Ascii.eqb d sep).
    + destruct H as [<-|H]; [destruct Hc | right; now apply (IH field)].
    + destruct (Split s sep) as [|g gs]; cbn in H.
      * destruct H as [<-|[]]. simpl in Hc. tauto.
      * destruct H as [<-|H].
        -- simpl in Hc. destruct Hc as [E|E]; [now left|].
           right. apply (IH g); [now left | exact E].
        -- right. apply (IH field); [now right | exact Hc].
Qed.

Lemma dropCR_chars (c : ascii) (s : string) :
  occurs c (dropCR s) -> occurs c s.
Proof.
  unfold occurs. induction s as [|d s IH]; [tauto|].
  destruct s as [|e s].
  - cbn. destruct (Ascii.eqb d carriage_return); simpl; tauto.
  - change (dropCR (String d (String e s)))
      with (String d (dropCR (String e s))).
    simpl. intros [E|H]; [now left | right; now apply IH].
Qed.

Lemma ScanLines_no_newline (output line : string) :
  In line (ScanLines output) -> ~ occurs newline line.
Proof.
  rewrite ScanLines_takeWhile. intros H Hc.
  apply in_map_iff in H as (raw & <- & Hraw).
  apply In_takeWhile, linesOf_In in Hraw.
  exact (Split_no_sep _ _ _ Hraw (dropCR_chars _ _ Hc)).
Qed.

End MoreCatalog.

(** X3.  The catalog of any ffprobe output, exactly: the descriptors of the
    lines that come before the first line of 65536 bytes or more (all the
    lines when there is none), in the order of the output.  Nothing is
    reordered or made up, and lines are only lost from the first over-long
    line on. *)
Theorem parseTracks_exact (output : string) :
  parseTracks output =
  flat_map descriptorOf
    (map GoBufio.dropCR (takeWhile shortb (rawLines output))).
Proof.
  unfold parseTracks. rewrite fold_parseLine, ScanLines_takeWhile.
  reflexivity.
Qed.

(** X4.  No field of a descriptor of the catalog holds a "|" or a newline:
    the index that goes into the side-car path and the ffmpeg arguments is
    one piece of one line. *)
Theorem catalog_fields_are_single_pieces (output : string)
  (track : TrackInfo) :
  In track (parseTracks output) ->
  Forall (fun field => ~ occurs "|" field /\ ~ occurs GoBufio.newline field)
    [Index track; Layout track; Language track; Title track].
Proof.
  unfold parseTracks. rewrite fold_parseLine. cbn [app]. intros H.
  apply in_flat_map in H as (line & Hline & Ht).
  pose proof (ScanLines_no_newline _ _ Hline) as Hnl.
  assert (Hfield : forall field,
             In field (Split line "|") ->
             ~ occurs "|" field /\ ~ occurs GoBufio.newline field).
  { intros field Hf. split; [now apply (Split_no_sep line) |].
    intros Hc. exact (Hnl (Split_chars _ _ _ _ Hf Hc)). }
  assert (Hempty : ~ occurs "|" "" /\ ~ occurs GoBufio.newline "")
    by (split; intros []).
  unfold descriptorOf in Ht.
  destruct (Split line "|") as [|i [|l [|g rest]]]; try contradiction.
  destruct Ht as [<-|[]]. cbn [Index Layout Language Title].
  constructor; [apply Hfield; now left|].
  constructor; [apply Hfield; right; now left|].
  constructor; [apply Hfield; right; right; now left|].
  constructor; [|constructor].
  destruct rest as [|t rest]; [exact Hempty|].
  apply Hfield. right; right; right; now left.
Qed.

Lemma catalog_fields_are_single_pieces_witness :
  Forall (fun field => ~ occurs "|" field /\ ~ occurs GoBufio.newline field)
    ["1"; "5.1"; "eng"; "Surround"].
Proof.
  apply (catalog_fields_are_single_pieces (combinedOutput Sim.twoTracks)
           (mkTrackInfo "1" "5.1" "eng" "Surround")).
  left. reflexivity.
Defined.

(** ** From the lines of ffprobe back to the tracks *)

Section RoundTrip.

Import GoBufio.

Lemma Split_plain (f : string) (sep : ascii) :
  ~ occurs sep f -> Split f sep = [f].
Proof.
  unfold occurs. induction f as [|c f IH]; intros H; [reflexivity|].
  cbn [Split]. destruct (Ascii.eqb_spec c sep) as [->|Hc].
  - exfalso. apply H. now left.
  - rewrite IH; [reflexivity|]. intros Hf. apply H. now right.
Qed.

Lemma Split_append_sep (f rest : string) (sep : ascii) :
  ~ occurs sep f -> Split (f ++ String sep rest) sep = f :: Split rest sep.
Proof.
  unfold occurs. induction f as [|c f IH]; intros H.
  - cbn. now rewrite Ascii.eqb_refl.
  - cbn [String.append Split]. destruct (Ascii.eqb_spec c sep) as [->|Hc].
    + exfalso. apply H. now left.
    + rewrite IH; [reflexivity|]. intros Hf. apply H. now right.
Qed.

Lemma Split_Join (fields : list string) (sep : ascii) :
  fields <> [] ->
  Forall (fun f => ~ occurs sep f) fields ->
  Split (Join fields (String sep "")) sep = fields.
Proof.
  unfold Join. induction fields as [|f fields IH]; [congruence|].
  intros _ H. inversion H as [|? ? Hf Hrest]; subst.
  destruct fields as [|g fields].
  - cbn. now apply Split_plain.
  - change (String.concat (String sep "") (f :: g :: fields))
      with (f ++ String sep (String.concat (String sep "") (g :: fields))).
    rewrite Split_append_sep by assumption.
    f_equal. apply IH; [discriminate | assumption].
Qed.

Lemma occurs_Join (c sep : ascii) (fields : list string) :
  occurs c (Join fields (String sep "")) ->
  c = sep \/ exists f, In f fields /\ occurs c f.
Proof.
  unfold Join. induction fields as [|f fields IH]; [intros []|].
  destruct fields as [|g fields].
  - cbn. intros H. right. exists f. split; [now left | exact H].
  - change (String.concat (String sep "") (f :: g :: fields))
      with (f ++ String sep (String.concat (String sep "") (g :: fields))).
    intros H. apply occurs_append in H as [H|H].
    + right. exists f. split; [now left | exact H].
    + destruct H as [E|H]; [now left|].
      destruct (IH H) as [E|(x & Hx & Hc)]; [now left|].
      right. exists x. split; [now right | exact Hc].
Qed.

Lemma dropCR_plain (s : string) :
  ~ occurs carriage_return s -> dropCR s = s.
Proof.
  unfold occurs. induction s as [|c s IH]; [reflexivity|].
  intros H. destruct s as [|d s].
  - cbn. destruct (Ascii.eqb_spec c carriage_return) as [->|Hc];
      [exfalso; apply H; now left | reflexivity].
  - change (dropCR (String c (String d s)))
      with (String c (dropCR (String d s))).
    rewrite IH; [reflexivity|]. intros Hd. apply H. now right.
Qed.

Lemma dropCR_append_CR (s : string) :
  ~ occurs carriage_return s ->
  dropCR (s ++ String carriage_return "") = s.
Proof.
  unfold occurs. induction s as [|c s IH]; intros H; [reflexivity|].
  cbn [String.append]. destruct s as [|d s].
  - cbn. destruct (Ascii.eqb_spec c carriage_return) as [->|Hc];
      [exfalso; apply H; now left | reflexivity].
  - change (dropCR (String c (String d s ++ String carriage_return "")))
      with (String c (dropCR (String d s ++ String carriage_return ""))).
    rewrite IH; [reflexivity|]. intros Hd. apply H. now right.
Qed.

Lemma linesOf_terminated (lines : list string) :
  linesOf (lines +++ [""]) = lines.
Proof.
  induction lines as [|l lines IH]; [reflexivity|].
  cbn [app]. destruct (lines +++ [""]) as [|x xs] eqn:E.
  - destruct lines; discriminate.
  - change (linesOf (l :: x :: xs)) with (l :: linesOf (x :: xs)).
    now rewrite IH.
Qed.

Lemma concat_cons (x : string) (l : list string) :
  String.concat "" (x :: l) = x ++ String.concat "" l.
Proof. destruct l; cbn; [now rewrite append_nil_r | reflexivity]. Qed.

(** The line of a plain track, as the scanner meets it. *)
Lemma compactLine_plain (track : TrackInfo) :
  plainTrack track ->
  ~ occurs newline (compactLine track) /\
  ~ occurs carriage_return (compactLine track) /\
  descriptorOf (compactLine track) = [track].
Proof.
  intros [Hf _]. unfold compactLine.
  assert (Hno : forall c, c <> "|"%char ->
            (forall f, In f [Index track; Layout track; Language track;
                             Title track] -> ~ occurs c f) ->
            ~ occurs c (Join [Index track; Layout track; Language track;
                              Title track] "|")).
  { intros c Hc Hall H. apply occurs_Join in H as [E|(f & Hin & Ho)];
      [congruence | exact (Hall f Hin Ho)]. }
  rewrite Forall_forall in Hf.
  split; [|split].
  - apply Hno; [discriminate|]. intros f Hin. apply (Hf f Hin).
  - apply Hno; [discriminate|]. intros f Hin. apply (Hf f Hin).
  - unfold descriptorOf. rewrite Split_Join.
    + destruct track; reflexivity.
    + discriminate.
    + apply Forall_forall. intros f Hin. apply (Hf f Hin).
Qed.

Lemma rawLines_compactOutput (crlf : bool) (tracks : list TrackInfo) :
  Forall plainTrack tracks ->
  Split (compactOutput crlf tracks) newline =
  map (fun track =>
         compactLine track
           ++ (if crlf then String carriage_return "" else ""))
    tracks +++ [""].
Proof.
  unfold compactOutput. induction 1 as [|t ts Ht _ IH]; [reflexivity|].
  cbn [map]. rewrite concat_cons.
  destruct (compactLine_plain t Ht) as (Hnl & _ & _).
  replace ((compactLine t ++ (if crlf then String carriage_return nl else nl))
             ++ String.concat ""
                  (map (fun track =>
                          compactLine track
                            ++ (if crlf then String carriage_return nl
                                else nl)) ts))
    with ((compactLine t ++ (if crlf then String carriage_return "" else ""))
            ++ String newline
                 (String.concat ""
                    (map (fun track =>
                            compactLine track
                              ++ (if crlf then String carriage_return nl
                                  else nl)) ts)))
    by (destruct crlf; rewrite !append_assoc; reflexivity).
  rewrite Split_append_sep, IH; [reflexivity|].
  intros H. apply occurs_append in H as [H|H]; [exact (Hnl H)|].
  destruct crlf; cbn in H; [destruct H as [E|[]]; discriminate | exact H].
Qed.

End RoundTrip.

(** X5.  Reading is the inverse of ffprobe's compact writing.  Take tracks
    whose fields hold no "|", newline or carriage return and whose lines
    fit the buffer of the scanner; write each as its four fields joined by
    "|" and end the lines by a newline, or all of them by a carriage return
    and a newline: the catalog read from that output is the list of these
    tracks. *)
Theorem parseTracks_compactOutput (crlf : bool) (tracks : list TrackInfo) :
  Forall plainTrack tracks ->
  parseTracks (compactOutput crlf tracks) = tracks.
Proof.
  intros H. unfold parseTracks.
  rewrite fold_parseLine, ScanLines_takeWhile. cbn [app].
  unfold rawLines. rewrite (rawLines_compactOutput crlf tracks H).
  rewrite linesOf_terminated, takeWhile_all.
  - rewrite map_map. induction H as [|t ts Ht _ IH]; [reflexivity|].
    cbn [map flat_map]. rewrite IH.
    destruct (compactLine_plain t Ht) as (_ & Hcr & Hd).
    destruct crlf.
    + rewrite dropCR_append_CR, Hd by assumption. reflexivity.
    + rewrite append_nil_r, dropCR_plain, Hd by assumption. reflexivity.
  - apply Forall_forall. intros line Hin.
    apply in_map_iff in Hin as (t & <- & Hin).
    rewrite Forall_forall in H. destruct (H t Hin) as [_ Hlen].
    unfold shortb. apply N.ltb_lt. rewrite length_append.
    destruct crlf; cbn [String.length]; lia.
Qed.

Lemma parseTracks_compactOutput_witness :
  parseTracks
    (compactOutput true
       [mkTrackInfo "1" "5.1" "eng" "Surround"; mkTrackInfo "2" "7.1" "jpn" ""])
  = [mkTrackInfo "1" "5.1" "eng" "Surround"; mkTrackInfo "2" "7.1" "jpn" ""].
Proof.
  apply parseTracks_compactOutput.
  repeat constructor; unfold occurs; cbn; intuition discriminate.
Defined.

(** ** What each stage does to the outside *)

Section Stages.

Variable sys : System.

Lemma extractTrackInfo_effects (file : string) (w : World sys) :
  let result := extractTrackInfo sys file w in
  trace (snd result) =
  trace w +++
  match os_Stat sys file (os w) with
  | StatNotExist => []
  | _ => [EvExec "ffprobe" (extractTrackInfo_args file)]
  end /\
  wg (snd result) = wg w.
Proof.
  cbv zeta. destruct (os_Stat sys file (os w)) eqn:Hst;
    try (rewrite extractTrackInfo_not_found by assumption;
         cbn; now rewrite app_nil_r);
    destruct (os_Exec sys "ffprobe" (extractTrackInfo_args file) (os w))
      as [r o] eqn:Hex;
    rewrite (extractTrackInfo_probe sys file w r o) by congruence;
    split; reflexivity.
Qed.

Lemma processTrack_effects (inputFile : string) (track : TrackInfo)
  (w : World sys) :
  let w' := snd (processTrack sys inputFile track w) in
  commands (trace w') =
  commands (trace w) +++
  match os_Stat sys (processTrack_enhancedFile inputFile track) (os w) with
  | StatOk => []
  | _ => [transcodeCommand inputFile track]
  end /\
  removals (trace w') = removals (trace w) /\
  wg w' = (wg w - 1)%Z.
Proof.
  cbv zeta.
  destruct (os_Stat sys (processTrack_enhancedFile inputFile track) (os w))
    eqn:Hst.
  - rewrite processTrack_existing by assumption. cbn [snd trace wg].
    rewrite commands_app, removals_app. cbn. now rewrite !app_nil_r.
  - destruct (os_Exec sys "ffmpeg" (processTrack_args inputFile track) (os w))
      as [r o] eqn:Hex.
    rewrite (processTrack_missing sys inputFile track w r o) by congruence.
    cbn [snd trace wg]. rewrite commands_app, removals_app.
    destruct (transcodeEvents_projections inputFile track (status r)
                (stderrRead sys o r)) as [C R].
    rewrite C, R. now rewrite app_nil_r.
  - destruct (os_Exec sys "ffmpeg" (processTrack_args inputFile track) (os w))
      as [r o] eqn:Hex.
    rewrite (processTrack_missing sys inputFile track w r o) by congruence.
    cbn [snd trace wg]. rewrite commands_app, removals_app.
    destruct (transcodeEvents_projections inputFile track (status r)
                (stderrRead sys o r)) as [C R].
    rewrite C, R. now rewrite app_nil_r.
Qed.

Lemma runGoroutines_commands (inputFile : string) (n : nat) :
  forall (runnable : list TrackInfo) (w : World sys),
    length runnable = n ->
    exists ran skipped,
      Permutation runnable (ran +++ skipped) /\
      commands (trace (snd (runGoroutines sys inputFile n runnable w)))
      = commands (trace w) +++ map (transcodeCommand inputFile) ran.
Proof.
  induction n as [|n IH]; intros runnable w Hlen.
  - destruct runnable; [|discriminate]. exists [], []. cbn.
    split; [constructor | now rewrite app_nil_r].
  - cbn [runGoroutines].
    set (k := (os_Next sys (os w) (length runnable) mod length runnable)%nat).
    assert (Hk : k < length runnable)
      by (apply Nat.mod_upper_bound; lia).
    destruct (nth_error runnable k) as [track|] eqn:Hnth;
      [|apply nth_error_None in Hnth; lia].
    destruct (without_nth _ _ _ Hnth) as (l1 & l2 & El & Er).
    rewrite Er. unfold bind.
    destruct (processTrack_effects inputFile track w) as (C1 & _ & _).
    destruct (processTrack sys inputFile track w) as [[] w1].
    cbn [snd] in *.
    assert (Hlen' : length (l1 +++ l2) = n).
    { rewrite El in Hlen. rewrite length_app in *. cbn in Hlen. lia. }
    destruct (IH (l1 +++ l2) w1 Hlen') as (ran & skipped & P & C2).
    assert (P' : Permutation runnable (track :: ran +++ skipped)).
    { rewrite El. symmetry. apply Permutation_cons_app. now symmetry. }
    destruct (os_Stat sys (processTrack_enhancedFile inputFile track) (os w)).
    + exists ran, (track :: skipped). split.
      * rewrite P'. apply Permutation_middle.
      * rewrite C2, C1. now rewrite app_nil_r.
    + exists (track :: ran), skipped. split; [exact P'|].
      rewrite C2, C1, <- app_assoc. reflexivity.
    + exists (track :: ran), skipped. split; [exact P'|].
      rewrite C2, C1, <- app_assoc. reflexivity.
Qed.

Lemma fanOut_commands (inputFile : string) (tracks : list TrackInfo)
  (w : World sys) :
  exists ran skipped,
    Permutation tracks (ran +++ skipped) /\
    commands (trace (snd (fanOut sys inputFile tracks w)))
    = commands (trace w) +++ map (transcodeCommand inputFile) ran.
Proof.
  unfold fanOut, bind. cbn [wg_New]. rewrite wg_Add_all.
  destruct (runGoroutines_commands inputFile (length tracks) tracks
              {| os := os w; trace := trace w;
                 wg := (0 + Z.of_nat (length tracks))%Z |} eq_refl)
    as (ran & skipped & P & C).
  cbn [os trace wg] in *.
  destruct (runGoroutines sys inputFile (length tracks) tracks _) as [[] w2].
  exists ran, skipped. split; [exact P | exact C].
Qed.

Lemma removeTemporaryFiles_commands (inputFile : string)
  (tracks : list TrackInfo) (w : World sys) :
  commands (trace (snd (removeTemporaryFiles sys inputFile tracks w)))
  = commands (trace w).
Proof.
  revert w; induction tracks as [|track tracks IH]; intros w; [reflexivity|].
  destruct (os_Remove sys (removeTemporaryFiles_enhancedFile inputFile track)
              (os w)) as [[e|] o] eqn:H.
  - rewrite (removeTemporaryFiles_failure _ _ _ _ _ _ _ H).
    cbn [snd trace]. rewrite commands_app. cbn. apply app_nil_r.
  - rewrite (removeTemporaryFiles_success _ _ _ _ _ _ H), IH.
    cbn [trace]. rewrite commands_app. cbn. apply app_nil_r.
Qed.

End Stages.

(** X6.  extractTrackInfo prints nothing and deletes nothing.  It runs one
    command, ffprobe with the file as last argument, unless os.Stat says the
    file does not exist, in which case it runs none.  When it returns an
    error the catalog is nil, and when it returns none the catalog is read
    from the combined output of that ffprobe call. *)
Theorem extractTrackInfo_runs_ffprobe_once (sys : System) (file : string)
  (w : World sys) :
  let result := extractTrackInfo sys file w in
  let probe := os_Exec sys "ffprobe" (extractTrackInfo_args file) (os w) in
  commands (trace (snd result)) =
  commands (trace w) +++
  match os_Stat sys file (os w) with
  | StatNotExist => []
  | _ => [("ffprobe", extractTrackInfo_args file)]
  end /\
  last (extractTrackInfo_args file) "" = file /\
  printed (trace (snd result)) = printed (trace w) /\
  removals (trace (snd result)) = removals (trace w) /\
  (snd (fst result) <> None -> fst (fst result) = []) /\
  (snd (fst result) = None ->
   fst (fst result) = parseTracks (combinedOutput (fst probe)) /\
   os (snd result) = snd probe).
Proof.
  cbv zeta.
  destruct (extractTrackInfo_effects sys file w) as [T _].
  rewrite T, commands_app, printed_app, removals_app.
  destruct (os_Stat sys file (os w)) eqn:Hst.
  - destruct (os_Exec sys "ffprobe" (extractTrackInfo_args file) (os w))
      as [r o] eqn:Hex.
    rewrite (extractTrackInfo_probe sys file w r o) by congruence.
    cbn. rewrite !app_nil_r.
    destruct (runError r); cbn; repeat split; congruence.
  - rewrite extractTrackInfo_not_found by assumption.
    cbn. rewrite !app_nil_r. repeat split; congruence.
  - destruct (os_Exec sys "ffprobe" (extractTrackInfo_args file) (os w))
      as [r o] eqn:Hex.
    rewrite (extractTrackInfo_probe sys file w r o) by congruence.
    cbn. rewrite !app_nil_r.
    destruct (runError r); cbn; repeat split; congruence.
Qed.

(** X7.  The worker calls ffmpeg exactly when os.Stat of the side-car path
    reports an error, of whatever kind, and then calls it once; it never
    deletes a file and always calls Done once.  When that ffmpeg call
    succeeds the worker prints no line of its own: what is printed are the
    "FFmpeg Output:" lines of the goroutine that copies the stderr of
    ffmpeg, made of the first bytes of that stderr. *)
Theorem processTrack_transcodes_unless_present (sys : System)
  (inputFile : string) (track : TrackInfo) (w : World sys) :
  let w' := snd (processTrack sys inputFile track w) in
  let run := os_Exec sys "ffmpeg" (processTrack_args inputFile track) (os w) in
  commands (trace w') =
  commands (trace w) +++
  match os_Stat sys (processTrack_enhancedFile inputFile track) (os w) with
  | StatOk => []
  | _ => [("ffmpeg", processTrack_args inputFile track)]
  end /\
  removals (trace w') = removals (trace w) /\
  wg w' = (wg w - 1)%Z /\
  (os_Stat sys (processTrack_enhancedFile inputFile track) (os w) <> StatOk ->
   status (fst run) = Succeeded ->
   os w' = snd run /\
   exists read unread,
     stderrOutput (fst run) = read ++ unread /\
     printed (trace w') =
     printed (trace w)
       +++ map (fun line => "FFmpeg Output: " ++ line ++ nl)
             (GoBufio.ScanLines read)).
Proof.
  cbv zeta.
  destruct (processTrack_effects sys inputFile track w) as (C & R & W).
  split; [exact C | split; [exact R | split; [exact W|]]].
  intros Hst Hok.
  destruct (os_Exec sys "ffmpeg" (processTrack_args inputFile track) (os w))
    as [r o] eqn:Hex.
  rewrite (processTrack_missing sys inputFile track w r o) by assumption.
  cbn [fst] in Hok. cbn [fst snd trace os]. split; [reflexivity|].
  destruct (substring_0_prefix (stderrOutput r)
              (os_StderrRead sys o (stderrOutput r))) as [unread Hu].
  exists (stderrRead sys o r), unread. split; [exact Hu|].
  rewrite printed_app. unfold transcodeEvents. rewrite Hok. cbn [printed].
  destruct (traces_of_prints (forwardedLines (stderrRead sys o r)))
    as (_ & _ & P).
  rewrite P. reflexivity.
Qed.

(** X8.  During the fan-out the program runs nothing but the ffmpeg commands
    of workers, and every track of the catalog is transcoded at most once,
    whatever the scheduler does: the catalog is a rearrangement of the
    tracks whose worker called ffmpeg followed by those whose worker found
    the side-car. *)
Theorem fanOut_transcodes_each_track_at_most_once (sys : System)
  (inputFile : string) (tracks : list TrackInfo) (w : World sys) :
  exists ran skipped,
    Permutation tracks (ran +++ skipped) /\
    commands (trace (snd (fanOut sys inputFile tracks w)))
    = commands (trace w)
        +++ map (fun track => ("ffmpeg", processTrack_args inputFile track))
              ran.
Proof. exact (fanOut_commands sys inputFile tracks w). Qed.

Lemma extractTrackInfo_runs_ffprobe_once_witness :
  let w := Sim.world ["film.mkv"] [] Sim.twoTracks in
  fst (fst (extractTrackInfo Sim.system "film.mkv" w))
  = [mkTrackInfo "1" "5.1" "eng" "Surround"; mkTrackInfo "2" "7.1" "jpn" ""].
Proof.
  intros w.
  destruct (extractTrackInfo_runs_ffprobe_once Sim.system "film.mkv" w)
    as (_ & _ & _ & _ & _ & Hok).
  exact (proj1 (Hok eq_refl)).
Defined.

Lemma processTrack_transcodes_unless_present_witness :
  let w := Sim.world ["film.mkv"] [] Sim.twoTracks in
  let track := mkTrackInfo "1" "5.1" "eng" "Surround" in
  printed (trace (snd (processTrack Sim.system "film.mkv" track w))) = [] /\
  Sim.files (os (snd (processTrack Sim.system "film.mkv" track w)))
  = ["film_track1_enhanced.opus"; "film.mkv"].
Proof.
  intros w track.
  destruct (processTrack_transcodes_unless_present Sim.system "film.mkv"
              track w) as (_ & _ & _ & Hok).
  assert (Hst : os_Stat Sim.system (processTrack_enhancedFile "film.mkv" track)
                  (os w) <> StatOk) by discriminate.
  destruct (Hok Hst eq_refl) as [Ho (read & unread & Hs & Hp)].
  split; [|now rewrite Ho].
  destruct read as [|c read]; [exact Hp | discriminate Hs].
Defined.

(** X9.  mergeTracks prints the command line, "ffmpeg" and the arguments
    separated by spaces, and then runs that one command; it deletes
    nothing.  It returns no error exactly when the command neither failed
    to start nor exited with a failure. *)
Theorem mergeTracks_logs_then_runs_once (sys : System)
  (inputFile outputFile : string) (tracks : list TrackInfo) (w : World sys) :
  let args := mergeTracks_args inputFile outputFile tracks in
  let result := mergeTracks sys inputFile outputFile tracks w in
  let run := os_Exec sys "ffmpeg" args (os w) in
  trace (snd result) =
  trace w +++ [EvPrint ("ffmpeg " ++ Join args " " ++ nl);
               EvExec "ffmpeg" args] /\
  os (snd result) = snd run /\
  (fst result = None <-> status (fst run) = Succeeded).
Proof.
  cbv zeta.
  destruct (os_Exec sys "ffmpeg"
              (mergeTracks_args inputFile outputFile tracks) (os w))
    as [r o] eqn:Hex.
  rewrite (mergeTracks_run sys inputFile outputFile tracks w r o Hex).
  cbn [fst snd os trace]. repeat split.
  - unfold runError. destruct (status r); congruence.
  - unfold runError. intros ->. reflexivity.
Qed.

(** X10.  The command line mergeTracks prints can be read back: when no
    argument holds a space, cutting the printed line at the spaces gives
    "ffmpeg" and the arguments, one by one. *)
Theorem mergeTracks_log_reads_back (inputFile outputFile : string)
  (tracks : list TrackInfo) :
  Forall (fun arg => ~ occurs " " arg)
    (mergeTracks_args inputFile outputFile tracks) ->
  Split ("ffmpeg " ++ Join (mergeTracks_args inputFile outputFile tracks) " ")
    " "
  = "ffmpeg" :: mergeTracks_args inputFile outputFile tracks.
Proof.
  intros H.
  change ("ffmpeg " ++ Join (mergeTracks_args inputFile outputFile tracks) " ")
    with ("ffmpeg"
            ++ String " "
                 (Join (mergeTracks_args inputFile outputFile tracks) " ")).
  rewrite Split_append_sep.
  - f_equal. apply Split_Join; [|exact H].
    rewrite mergeTracks_args_eq. discriminate.
  - unfold occurs. cbn. intuition discriminate.
Qed.

Lemma mergeTracks_log_reads_back_witness :
  Split
    ("ffmpeg "
       ++ Join (mergeTracks_args "film.mkv" "film_enhanced.mkv"
                  [mkTrackInfo "1" "5.1" "eng" "Surround"]) " ") " "
  = ["ffmpeg"; "-i"; "film.mkv"; "-i"; "film_track1_enhanced.opus";
     "-map"; "0:v"; "-map"; "0:s?";
     "-map"; "0:a:0"; "-c:a"; "copy"; "-map"; "1:a"; "-c:a"; "copy";
     "-c:v"; "copy"; "-c:s"; "copy"; "-y"; "film_enhanced.mkv"].
Proof.
  apply (mergeTracks_log_reads_back "film.mkv" "film_enhanced.mkv"
           [mkTrackInfo "1" "5.1" "eng" "Surround"]).
  repeat constructor; unfold occurs; cbn; intuition discriminate.
Defined.

(** ** Cleanup, when it goes through *)

Section MoreCleanup.

Variable sys : System.
Variable inputFile : string.

Lemma removeTemporaryFiles_all (tracks : list TrackInfo) :
  forall (w : World sys) (o' : OS sys),
    removedAll sys (map (removeTemporaryFiles_enhancedFile inputFile) tracks)
      (os w) o' ->
    let result := removeTemporaryFiles sys inputFile tracks w in
    fst result = None /\
    os (snd result) = o' /\
    removals (trace (snd result)) =
    removals (trace w)
      +++ map (removeTemporaryFiles_enhancedFile inputFile) tracks /\
    printed (trace (snd result)) =
    printed (trace w)
      +++ map (fun track =>
                 "Temporary file "
                   ++ removeTemporaryFiles_enhancedFile inputFile track
                   ++ " removed successfully." ++ nl) tracks.
Proof.
  induction tracks as [|track tracks IH]; intros w o' H; cbv zeta.
  - inversion H; subst. cbn. now rewrite !app_nil_r.
  - inversion H as [|p ps oa ob oc Hrm Hrest]; subst.
    rewrite (removeTemporaryFiles_success _ _ _ _ _ _ Hrm).
    match goal with
    | |- context [removeTemporaryFiles sys inputFile tracks ?w1] =>
        destruct (IH w1 o' Hrest) as (R & O & T & P)
    end.
    rewrite R, O, T, P. cbn [trace].
    rewrite removals_app, printed_app. cbn.
    now rewrite <- !app_assoc.
Qed.

Lemma removeTemporaryFiles_nil_inv (tracks : list TrackInfo) :
  forall w : World sys,
    fst (removeTemporaryFiles sys inputFile tracks w) = None ->
    removedAll sys (map (removeTemporaryFiles_enhancedFile inputFile) tracks)
      (os w) (os (snd (removeTemporaryFiles sys inputFile tracks w))).
Proof.
  induction tracks as [|track tracks IH]; intros w H.
  - cbn. constructor.
  - destruct (os_Remove sys (removeTemporaryFiles_enhancedFile inputFile track)
                (os w)) as [[e|] o] eqn:Hrm.
    + rewrite (removeTemporaryFiles_failure _ _ _ _ _ _ _ Hrm) in H.
      discriminate.
    + rewrite (removeTemporaryFiles_success _ _ _ _ _ _ Hrm) in *.
      cbn [map]. econstructor; [exact Hrm|].
      match goal with
      | H : fst (removeTemporaryFiles sys inputFile tracks ?w1) = None |- _ =>
          exact (IH w1 H)
      end.
Qed.

End MoreCleanup.

(** X11.  removeTemporaryFiles returns nil exactly when every deletion
    succeeds, one after the other in catalog order; it has then deleted the
    side-car of every track of the catalog, in order, and printed one
    "removed successfully" line for each. *)
Theorem removeTemporaryFiles_nil_iff_all_removed (sys : System)
  (inputFile : string) (tracks : list TrackInfo) (w : World sys) :
  let result := removeTemporaryFiles sys inputFile tracks w in
  let paths := map (removeTemporaryFiles_enhancedFile inputFile) tracks in
  (fst result = None <-> exists o', removedAll sys paths (os w) o') /\
  (fst result = None ->
   removedAll sys paths (os w) (os (snd result)) /\
   removals (trace (snd result)) = removals (trace w) +++ paths /\
   printed (trace (snd result)) =
   printed (trace w)
     +++ map (fun path => "Temporary file " ++ path
                            ++ " removed successfully." ++ nl) paths).
Proof.
  cbv zeta. split; [split|].
  - intros H. eexists.
    exact (removeTemporaryFiles_nil_inv sys inputFile tracks w H).
  - intros [o' H].
    exact (proj1 (removeTemporaryFiles_all sys inputFile tracks w o' H)).
  - intros H.
    pose proof (removeTemporaryFiles_nil_inv sys inputFile tracks w H) as A.
    destruct (removeTemporaryFiles_all sys inputFile tracks w _ A)
      as (_ & _ & T & P).
    split; [exact A | split; [exact T|]].
    rewrite P, map_map. reflexivity.
Qed.

Lemma removeTemporaryFiles_nil_iff_all_removed_witness :
  let tracks :=
    [mkTrackInfo "1" "5.1" "eng" ""; mkTrackInfo "2" "7.1" "jpn" ""] in
  let w :=
    Sim.world ["film_track1_enhanced.opus"; "film_track2_enhanced.opus";
               "film.mkv"] [] Sim.twoTracks in
  removals (trace (snd (removeTemporaryFiles Sim.system "film.mkv" tracks w)))
  = ["film_track1_enhanced.opus"; "film_track2_enhanced.opus"].
Proof.
  intros tracks w.
  destruct (removeTemporaryFiles_nil_iff_all_removed Sim.system "film.mkv"
              tracks w) as [_ H].
  destruct (H eq_refl) as (_ & T & _). exact T.
Defined.

(** X12.  removeTemporaryFiles runs no command, and it prints exactly one
    line for every deletion it asks for, whether the deletion succeeds or
    fails. *)
Theorem removeTemporaryFiles_reports_each_deletion (sys : System)
  (inputFile : string) (tracks : list TrackInfo) (w : World sys) :
  let w' := snd (removeTemporaryFiles sys inputFile tracks w) in
  commands (trace w') = commands (trace w) /\
  wg w' = wg w /\
  exists k,
    k <= length tracks /\
    length (removals (trace w')) = length (removals (trace w)) + k /\
    length (printed (trace w')) = length (printed (trace w)) + k.
Proof.
  cbv zeta. split; [apply removeTemporaryFiles_commands|].
  split;
    [destruct (removeTemporaryFiles_trace sys inputFile tracks w)
       as (events & _ & W); exact W|].
  revert w. induction tracks as [|track tracks IH]; intros w.
  - exists 0. cbn. repeat split; lia.
  - destruct (os_Remove sys (removeTemporaryFiles_enhancedFile inputFile track)
                (os w)) as [[e|] o] eqn:H.
    + rewrite (removeTemporaryFiles_failure _ _ _ _ _ _ _ H).
      exists 1. cbn [snd trace length].
      rewrite removals_app, printed_app, !length_app. cbn. repeat split; lia.
    + rewrite (removeTemporaryFiles_success _ _ _ _ _ _ H).
      match goal with
      | |- context [removeTemporaryFiles sys inputFile tracks ?w1] =>
          destruct (IH w1) as (k & Hk & R & P)
      end.
      exists (S k). rewrite R, P. cbn [trace length].
      rewrite removals_app, printed_app, !length_app. cbn.
      repeat split; lia.
Qed.

(** ** Whole runs of main *)

Section Runs.

Variable sys : System.

(** How a run with an input path ends, stage by stage. *)
Lemma main_cases (prog inputFile : string) (rest : list string)
  (w : World sys) :
  let outputFile := TrimSuffix inputFile ".mkv" ++ "_enhanced.mkv" in
  let extracted := extractTrackInfo sys inputFile w in
  let tracks := fst (fst extracted) in
  let joined := snd (fanOut sys inputFile tracks (snd extracted)) in
  let merged := mergeTracks sys inputFile outputFile tracks joined in
  let cleaned := removeTemporaryFiles sys inputFile tracks (snd merged) in
  main sys (prog :: inputFile :: rest) w =
  match snd (fst extracted) with
  | Some e =>
      (Exited 1,
       {| os := os (snd extracted);
          trace := trace (snd extracted)
                     +++ [EvPrint ("Error extracting track info: " ++ e
                                     ++ nl)];
          wg := wg (snd extracted) |})
  | None =>
      match fst merged with
      | Some e =>
          (Exited 1,
           {| os := os (snd merged);
              trace := trace (snd merged)
                         +++ [EvPrint ("Error merging tracks: " ++ e ++ nl)];
              wg := wg (snd merged) |})
      | None =>
          (Exited 0,
           {| os := os (snd cleaned);
              trace := trace (snd cleaned)
                         +++ [EvPrint ("Enhanced MKV generated: "
                                         ++ outputFile ++ nl)];
              wg := wg (snd cleaned) |})
      end
  end.
Proof.
  cbv zeta.
  destruct (extractTrackInfo sys inputFile w) as [[tracks [e|]] w1] eqn:Hex;
    cbn [fst snd].
  - apply (main_extract_error sys prog inputFile rest w w1 tracks e Hex).
  - destruct (fanOut_joins sys inputFile tracks w1)
      as (events & w2 & Hfan & _).
    rewrite (main_after_join sys prog inputFile rest w w1 w2 tracks Hex Hfan).
    rewrite Hfan. cbn [snd]. cbv zeta.
    destruct (mergeTracks sys inputFile _ tracks w2) as [[e|] w3];
      cbn [fst snd]; [reflexivity|].
    destruct (removeTemporaryFiles sys inputFile tracks w3) as [res w4].
    reflexivity.
Qed.

Lemma main_without_input (Args : list string) (w : World sys) :
  length Args < 2 ->
  main sys Args w =
  (Exited 1,
   {| os := os w;
      trace := trace w +++ [EvPrint ("Usage: go run script.go <input.mkv>"
                                       ++ nl)];
      wg := wg w |}).
Proof.
  intros H. destruct Args as [|a [|b rest]]; cbn in H; try lia; reflexivity.
Qed.

Lemma fanOut_removals (inputFile : string) (tracks : list TrackInfo)
  (w : World sys) :
  removals (trace (snd (fanOut sys inputFile tracks w))) = removals (trace w).
Proof.
  destruct (fanOut_joins sys inputFile tracks w)
    as (events & w2 & Hfan & T & R & _).
  rewrite Hfan. cbn [snd]. rewrite T, removals_app, R. apply app_nil_r.
Qed.

Lemma mergeTracks_removals (inputFile outputFile : string)
  (tracks : list TrackInfo) (w : World sys) :
  removals (trace (snd (mergeTracks sys inputFile outputFile tracks w)))
  = removals (trace w).
Proof.
  destruct (os_Exec sys "ffmpeg"
              (mergeTracks_args inputFile outputFile tracks) (os w))
    as [r o] eqn:Hex.
  rewrite (mergeTracks_run sys inputFile outputFile tracks w r o Hex).
  cbn [snd trace]. rewrite removals_app. cbn. apply app_nil_r.
Qed.

End Runs.

(** X13.  Without an input path (no argument after the program name), main
    prints the usage line and exits with status 1; it looks at no file and
    runs no command. *)
Theorem main_usage (sys : System) (Args : list string) (w : World sys) :
  length Args < 2 ->
  main sys Args w =
  (Exited 1,
   {| os := os w;
      trace := trace w +++ [EvPrint ("Usage: go run script.go <input.mkv>"
                                       ++ nl)];
      wg := wg w |}).
Proof. apply main_without_input. Qed.

Lemma main_usage_witness :
  fst (main Sim.system ["enhance"] (Sim.world ["film.mkv"] [] Sim.twoTracks))
  = Exited 1.
Proof.
  rewrite (main_usage Sim.system ["enhance"]
             (Sim.world ["film.mkv"] [] Sim.twoTracks)).
  - reflexivity.
  - cbn. lia.
Defined.

(** X15.  A run with an input path exits with status 0 exactly when
    extractTrackInfo returned no error and mergeTracks, called after the
    join, returned no error.  The results of the workers and of cleanup do
    not count. *)
Theorem main_exit_0_iff (sys : System) (prog inputFile : string)
  (rest : list string) (w : World sys) :
  let outputFile := TrimSuffix inputFile ".mkv" ++ "_enhanced.mkv" in
  let extracted := extractTrackInfo sys inputFile w in
  let tracks := fst (fst extracted) in
  let joined := snd (fanOut sys inputFile tracks (snd extracted)) in
  fst (main sys (prog :: inputFile :: rest) w) = Exited 0 <->
  snd (fst extracted) = None /\
  fst (mergeTracks sys inputFile outputFile tracks joined) = None.
Proof.
  cbv zeta. rewrite main_cases.
  destruct (snd (fst (extractTrackInfo sys inputFile w)));
    [split; [discriminate | intros [? _]; discriminate]|].
  match goal with
  | |- context [match fst ?m with _ => _ end] => destruct (fst m)
  end; split; try discriminate; try tauto.
  intros [_ ?]; discriminate.
Qed.

(** X16.  A run that exits with status 1 has deleted nothing: main deletes
    side-cars only after a merge that succeeded. *)
Theorem main_failure_deletes_nothing (sys : System) (Args : list string)
  (w : World sys) :
  fst (main sys Args w) = Exited 1 ->
  removals (trace (snd (main sys Args w))) = removals (trace w).
Proof.
  destruct Args as [|prog [|inputFile rest]];
    try (rewrite main_without_input by (cbn; lia); intros _;
         cbn [snd trace]; rewrite removals_app; cbn; apply app_nil_r).
  rewrite main_cases.
  pose proof (extractTrackInfo_removals sys inputFile w) as R1.
  destruct (snd (fst (extractTrackInfo sys inputFile w))).
  - intros _. cbn [snd trace]. rewrite removals_app, R1. cbn.
    apply app_nil_r.
  - match goal with
    | |- context [match fst ?m with _ => _ end] =>
        destruct (fst m) eqn:Hm
    end; [|discriminate].
    intros _. cbn [snd trace].
    rewrite removals_app, mergeTracks_removals, fanOut_removals, R1. cbn.
    apply app_nil_r.
Qed.

Lemma main_failure_deletes_nothing_witness :
  let w := Sim.world ["film.mkv"] ["film_track2_enhanced.opus"] Sim.twoTracks in
  removals (trace (snd (main Sim.system ["enhance"; "film.mkv"] w))) = [].
Proof.
  intros w.
  exact (main_failure_deletes_nothing Sim.system ["enhance"; "film.mkv"] w
           eq_refl).
Defined.

(** X17.  The commands of a run with an input path: none when os.Stat says
    the input does not exist; otherwise ffprobe on the input first and
    after it nothing but ffmpeg.  No other program is ever run, and
    ffprobe is run once. *)
Theorem main_runs_ffprobe_then_ffmpeg (sys : System) (prog inputFile : string)
  (rest : list string) (w : World sys) :
  exists later,
    commands (trace (snd (main sys (prog :: inputFile :: rest) w))) =
    commands (trace w) +++
    match os_Stat sys inputFile (os w) with
    | StatNotExist => []
    | _ => ("ffprobe", extractTrackInfo_args inputFile) :: later
    end /\
    Forall (fun command => fst command = "ffmpeg") later.
Proof.
  rewrite main_cases.
  destruct (extractTrackInfo_effects sys inputFile w) as [T1 _].
  destruct (snd (fst (extractTrackInfo sys inputFile w))) eqn:Herr.
  - exists []. split; [|constructor]. cbn [snd trace].
    rewrite commands_app, T1, commands_app. cbn. rewrite app_nil_r.
    destruct (os_Stat sys inputFile (os w)); reflexivity.
  - assert (Hst : os_Stat sys inputFile (os w) <> StatNotExist).
    { intros Hst. rewrite (extractTrackInfo_not_found sys _ _ Hst) in Herr.
      discriminate. }
    set (tracks := fst (fst (extractTrackInfo sys inputFile w))) in *.
    set (w1 := snd (extractTrackInfo sys inputFile w)) in *.
    destruct (fanOut_commands sys inputFile tracks w1)
      as (ran & skipped & _ & C2).
    set (w2 := snd (fanOut sys inputFile tracks w1)) in *.
    set (outputFile := TrimSuffix inputFile ".mkv" ++ "_enhanced.mkv").
    destruct (os_Exec sys "ffmpeg"
                (mergeTracks_args inputFile outputFile tracks) (os w2))
      as [r o] eqn:Hm.
    rewrite (mergeTracks_run sys inputFile outputFile tracks w2 r o Hm).
    exists (map (transcodeCommand inputFile) ran
              +++ [("ffmpeg", mergeTracks_args inputFile outputFile tracks)]).
    split.
    + assert (C : commands (trace w2 +++
                      [EvPrint ("ffmpeg "
                                  ++ Join (mergeTracks_args inputFile
                                             outputFile tracks) " " ++ nl);
                       EvExec "ffmpeg"
                         (mergeTracks_args inputFile outputFile tracks)])
                  = commands (trace w) +++
                    ("ffprobe", extractTrackInfo_args inputFile)
                      :: map (transcodeCommand inputFile) ran
                      +++ [("ffmpeg",
                            mergeTracks_args inputFile outputFile tracks)]).
      { rewrite commands_app, C2, T1, commands_app.
        destruct (os_Stat sys inputFile (os w)); [|congruence|];
          cbn; rewrite <- !app_assoc; reflexivity. }
      destruct (runError r); cbn [fst snd trace].
      * rewrite commands_app, C. cbn. rewrite app_nil_r.
        destruct (os_Stat sys inputFile (os w)); [|congruence|]; reflexivity.
      * rewrite commands_app, removeTemporaryFiles_commands. cbn [trace].
        rewrite C. cbn. rewrite app_nil_r.
        destruct (os_Stat sys inputFile (os w)); [|congruence|]; reflexivity.
    + apply Forall_app. split; [|repeat constructor].
      apply Forall_forall. intros c Hc.
      apply in_map_iff in Hc as (t & <- & _). reflexivity.
Qed.

(** X18.  A run in which the catalog is read, the merge succeeds and every
    deletion succeeds ends with status 0, has deleted the side-car of every
    track of the catalog in catalog order and nothing else, and leaves the
    system as the last deletion left it. *)
Theorem main_success_deletes_every_sidecar (sys : System)
  (prog inputFile : string) (rest : list string) (w w1 w2 w3 : World sys)
  (tracks : list TrackInfo) (released : bool) (o' : OS sys) :
  let outputFile := TrimSuffix inputFile ".mkv" ++ "_enhanced.mkv" in
  let final := main sys (prog :: inputFile :: rest) w in
  extractTrackInfo sys inputFile w = ((tracks, None), w1) ->
  fanOut sys inputFile tracks w1 = (released, w2) ->
  mergeTracks sys inputFile outputFile tracks w2 = (None, w3) ->
  removedAll sys (map (removeTemporaryFiles_enhancedFile inputFile) tracks)
    (os w3) o' ->
  fst final = Exited 0 /\
  os (snd final) = o' /\
  removals (trace (snd final)) =
  removals (trace w)
    +++ map (removeTemporaryFiles_enhancedFile inputFile) tracks /\
  last (printed (trace (snd final))) ""
  = "Enhanced MKV generated: " ++ outputFile ++ nl.
Proof.
  intros outputFile final Hex Hfan Hm Hrm. subst final.
  rewrite main_cases, Hex. cbn [fst snd]. rewrite Hfan. cbn [snd].
  fold outputFile. rewrite Hm. cbn [fst snd].
  destruct (removeTemporaryFiles_all sys inputFile tracks w3 o' Hrm)
    as (_ & O & T & _).
  split; [reflexivity | split; [exact O | split]].
  - cbn [trace]. rewrite removals_app, T. cbn. rewrite app_nil_r.
    f_equal.
    pose proof (mergeTracks_removals sys inputFile outputFile tracks w2) as R3.
    pose proof (fanOut_removals sys inputFile tracks w1) as R2.
    pose proof (extractTrackInfo_removals sys inputFile w) as R1.
    rewrite Hm in R3. rewrite Hfan in R2. rewrite Hex in R1.
    cbn [snd] in *. congruence.
  - cbn [trace]. rewrite printed_app. apply last_last.
Qed.

Lemma main_success_deletes_every_sidecar_witness :
  let w := Sim.world ["film.mkv"] [] Sim.twoTracks in
  let final := main Sim.system ["enhance"; "film.mkv"] w in
  fst final = Exited 0 /\
  Sim.files (os (snd final)) = ["film_enhanced.mkv"; "film.mkv"] /\
  removals (trace (snd final))
  = ["film_track1_enhanced.opus"; "film_track2_enhanced.opus"].
Proof.
  intros w final.
  pose (tracks := parseTracks (combinedOutput Sim.twoTracks)).
  pose (w1 := snd (extractTrackInfo Sim.system "film.mkv" w)).
  pose (w2 := snd (fanOut Sim.system "film.mkv" tracks w1)).
  pose (w3 := snd (mergeTracks Sim.system "film.mkv" "film_enhanced.mkv"
                     tracks w2)).
  pose (o' := Sim.mkState ["film_enhanced.mkv"; "film.mkv"] [] Sim.twoTracks).
  assert (Hrm : removedAll Sim.system
                  (map (removeTemporaryFiles_enhancedFile "film.mkv") tracks)
                  (os w3) o').
  { eapply removedAll_cons; [reflexivity|].
    eapply removedAll_cons; [reflexivity|]. apply removedAll_nil. }
  destruct (main_success_deletes_every_sidecar Sim.system "enhance" "film.mkv"
              [] w w1 w2 w3 tracks true o' eq_refl eq_refl eq_refl Hrm)
    as (E & O & T & _).
  subst final. split; [exact E | split; [now rewrite O | exact T]].
Defined.

(** ** Lines and fields *)

Section Fields.

Lemma Join_Split (s : string) (sep : ascii) :
  Join (Split s sep) (String sep "") = s.
Proof.
  unfold Join. induction s as [|c s IH]; [reflexivity|].
  cbn [Split]. pose proof (Split_not_nil s sep) as Hne.
  destruct (Ascii.eqb_spec c sep) as [->|Hc].
  - destruct (Split s sep) as [|f fs]; [congruence|].
    change (String.concat (String sep "") ("" :: f :: fs))
      with (String sep (String.concat (String sep "") (f :: fs))).
    now rewrite IH.
  - destruct (Split s sep) as [|f fs]; [congruence|].
    destruct fs as [|g gs]; cbn in *; now rewrite IH.
Qed.

Lemma length_Split (s : string) (sep : ascii) :
  length (Split s sep)
  = S (count_occ ascii_dec (list_ascii_of_string s) sep).
Proof.
  induction s as [|c s IH]; [reflexivity|].
  cbn [Split list_ascii_of_string count_occ].
  pose proof (Split_not_nil s sep) as Hne.
  destruct (Ascii.eqb_spec c sep) as [->|Hc].
  - destruct (ascii_dec sep sep); [|congruence]. cbn. now rewrite IH.
  - destruct (ascii_dec c sep); [congruence|].
    destruct (Split s sep) as [|f fs]; [congruence|]. exact IH.
Qed.

End Fields.

(** X19.  Cutting a line at "|" loses nothing: the fields joined by "|"
    are the line again.  A line gives a descriptor exactly when it holds
    at least two "|", and then it gives one descriptor. *)
Theorem line_gives_descriptor_iff_two_separators (line : string) :
  Join (Split line "|") "|" = line /\
  (length (descriptorOf line) = 1 <->
   2 <= count_occ ascii_dec (list_ascii_of_string line) "|"%char) /\
  (length (descriptorOf line) = 0 <->
   count_occ ascii_dec (list_ascii_of_string line) "|"%char < 2) /\
  parseLine [] line = descriptorOf line.
Proof.
  split; [apply Join_Split|].
  pose proof (length_Split line "|") as L.
  split; [|split].
  - unfold descriptorOf.
    destruct (Split line "|") as [|i [|l [|g r]]]; cbn in *; split; lia.
  - unfold descriptorOf.
    destruct (Split line "|") as [|i [|l [|g r]]]; cbn in *; split; lia.
  - apply parseLine_descriptorOf.
Qed.
